(** * GitQlient: the revision file status model and the work-in-progress
    reconciliation

  A shallow embedding of [src/git/RevisionFile.h] and of the file cache of
  [src/src/commits/WorkInProgressWidget.cpp], with the properties the
  specification states about them.

  - C++ [int] values are [Z]; the status flags are the powers of two of the
    [StatusFlag] enum and are combined with [Z.lor] / tested with [Z.land].
  - [QVector<T>] is [list T]; [QVector::at] outside the vector is the
    [OutOfRange] error.
  - [QMap<QString, QPair<bool, QListWidgetItem *>>] is a [gmap] from the
    path to the pair of the seen bit and the address of the item; the items
    live in a store indexed by their address, the three list widgets hold
    addresses. *)

From Stdlib Require Import ZArith Lia Ascii.
From Stdlib Require OrderedTypeEx.
From stdpp Require Import base option list strings gmap fin_maps sorting.

#[local] Set Warnings "-clear-no-such-hyp".

Local Open Scope Z_scope.

(** ** Errors *)

Inductive Error : Type :=
| OutOfRange.

Inductive result (A : Type) : Type :=
| Ok (a : A)
| Err (e : Error).

Arguments Ok {A} a.
Arguments Err {A} e.

#[global] Instance result_ret : MRet result := fun A a => Ok a.
#[global] Instance result_bind : MBind result := fun A B f m =>
  match m with
  | Ok a => f a
  | Err e => Err e
  end.

(** ** QVector *)

Module QVector.

(** [QVector::at(i)]: [i] must be a valid position, [0 <= i < size()]. *)
Definition at_ {A} (v : list A) (i : Z) : result A :=
  if bool_decide (0 <= i < Z.of_nat (length v)) then
    match v !! Z.to_nat i with
    | Some x => Ok x
    | None => Err OutOfRange
    end
  else Err OutOfRange.

End QVector.

(** ** RevisionFile *)

Module RevisionFile.

(** [enum StatusFlag]. *)
Inductive StatusFlag : Type :=
  | MODIFIED
  | DELETED
  | NEW
  | RENAMED
  | COPIED
  | UNKNOWN
  | IN_INDEX
  | CONFLICT.

#[global] Instance StatusFlag_eq_dec : EqDecision StatusFlag.
Proof. solve_decision. Defined.

(** The enumerators' values. *)
Definition flag_value (sf : StatusFlag) : Z :=
  match sf with
  | MODIFIED => 1
  | DELETED => 2
  | NEW => 4
  | RENAMED => 8
  | COPIED => 16
  | UNKNOWN => 32
  | IN_INDEX => 64
  | CONFLICT => 128
  end.

(** [status & sf] as a C++ condition. *)
Definition has_flag (status : Z) (sf : StatusFlag) : bool :=
  negb (Z.land status (flag_value sf) =? 0).

(** The flag word with exactly the flags of [sfs] set. *)
Definition flags_of (sfs : list StatusFlag) : Z :=
  foldr (fun sf acc => Z.lor (flag_value sf) acc) 0 sfs.

Record t : Type := mk {
  mergeParent : list Z;
  mFiles : list string;
  mOnlyModified : bool;
  mFileStatus : list Z;
  mRenamedFiles : list string
}.

(** [RevisionFile() = default], with the default member initialisers. *)
Definition new : t :=
  {| mergeParent := []; mFiles := []; mOnlyModified := true;
     mFileStatus := []; mRenamedFiles := [] |}.

Definition count (rf : t) : Z := Z.of_nat (length (mFiles rf)).

Definition getStatus (rf : t) (pos : Z) : result Z :=
  QVector.at_ (mFileStatus rf) pos.

Definition setOnlyModified (onlyModified : bool) (rf : t) : t :=
  {| mergeParent := mergeParent rf; mFiles := mFiles rf;
     mOnlyModified := onlyModified;
     mFileStatus := mFileStatus rf; mRenamedFiles := mRenamedFiles rf |}.

Definition getFilesCount (rf : t) : Z := Z.of_nat (length (mFileStatus rf)).

Definition appendExtStatus (file : string) (rf : t) : t :=
  {| mergeParent := mergeParent rf; mFiles := mFiles rf;
     mOnlyModified := mOnlyModified rf;
     mFileStatus := mFileStatus rf;
     mRenamedFiles := mRenamedFiles rf ++ [file] |}.

Definition getFile (rf : t) (index : Z) : result string :=
  QVector.at_ (mFiles rf) index.

(** [mFiles] is a public member: the loader appends the path itself. *)
Definition appendFile (file : string) (rf : t) : t :=
  {| mergeParent := mergeParent rf; mFiles := mFiles rf ++ [file];
     mOnlyModified := mOnlyModified rf;
     mFileStatus := mFileStatus rf; mRenamedFiles := mRenamedFiles rf |}.

(** The invariant of the data model: one flag word per path. *)
Definition aligned (rf : t) : Prop :=
  length (mFiles rf) = length (mFileStatus rf).

#[global] Instance aligned_dec rf : Decision (aligned rf).
Proof. unfold aligned. apply _. Defined.

(** *** Members that the header only declares *)

(** Modelled from the spec: the body of [statusCmp] is missing (only its
    declaration is in the header).  "Returns whether flag is set for entry
    index.  Fails with OutOfRange under the same condition", that is when
    the index is not in [[0, count())]. *)
Definition statusCmp (rf : t) (idx : Z) (sf : StatusFlag) : result bool :=
  if bool_decide (0 <= idx < count rf) then
    status ← getStatus rf idx; Ok (has_flag status sf)
  else Err OutOfRange.

(** Modelled from the spec: the body of [extendedStatus] is missing.
    "Returns the rename/copy descriptor for index, or an empty value if
    none recorded." *)
Definition extendedStatus (rf : t) (idx : Z) : string :=
  match QVector.at_ (mRenamedFiles rf) idx with
  | Ok s => s
  | Err _ => ""%string
  end.

(** Modelled from the spec: the body of [setStatus(flag)] is missing.  It
    appends a new entry with the flag; "any call other than with exactly
    MODIFIED clears the onlyModified invariant to false". *)
Definition setStatus_flag (flag : StatusFlag) (rf : t) : t :=
  {| mergeParent := mergeParent rf; mFiles := mFiles rf;
     mOnlyModified := mOnlyModified rf && bool_decide (flag = MODIFIED);
     mFileStatus := mFileStatus rf ++ [flag_value flag];
     mRenamedFiles := mRenamedFiles rf |}.

(** Modelled from the spec: the body of [setStatus(pos, flag)] is missing.
    It overwrites the flag word of entry [pos]; outside the vector the
    index is out of range. *)
Definition setStatus_pos (pos : Z) (flag : StatusFlag) (rf : t) : result t :=
  if bool_decide (0 <= pos < Z.of_nat (length (mFileStatus rf))) then
    Ok {| mergeParent := mergeParent rf; mFiles := mFiles rf;
          mOnlyModified := mOnlyModified rf && bool_decide (flag = MODIFIED);
          mFileStatus := <[Z.to_nat pos := flag_value flag]> (mFileStatus rf);
          mRenamedFiles := mRenamedFiles rf |}
  else Err OutOfRange.

(** Modelled from the spec: the body of [appendStatus(pos, flag)] is
    missing.  It "performs a bitwise-OR (additive)" on entry [pos]. *)
Definition appendStatus (pos : Z) (flag : StatusFlag) (rf : t) : result t :=
  status ← QVector.at_ (mFileStatus rf) pos;
  Ok {| mergeParent := mergeParent rf; mFiles := mFiles rf;
        mOnlyModified := mOnlyModified rf && bool_decide (flag = MODIFIED);
        mFileStatus :=
          <[Z.to_nat pos := Z.lor status (flag_value flag)]> (mFileStatus rf);
        mRenamedFiles := mRenamedFiles rf |}.

Definition is_digit (c : ascii) : bool :=
  bool_decide (48 <= Z.of_nat (nat_of_ascii c) <= 57).

(** Modelled from the spec: the token to flag table of
    [setStatus(rowStatus)], read on the prefix of the token. *)
Definition token_flag (rowSt : string) : StatusFlag :=
  match rowSt with
  | String "M" _ => MODIFIED
  | String "A" _ => NEW
  | String "D" _ => DELETED
  | String "R" (String d _) => if is_digit d then RENAMED else UNKNOWN
  | String "C" (String d _) => if is_digit d then COPIED else UNKNOWN
  | String "U" _ => CONFLICT
  | _ => UNKNOWN
  end.

(** Modelled from the spec: the body of [setStatus(rowSt)] is missing.  It
    "parses a single raw status token into flag bits and appends a new
    entry". *)
Definition setStatus (rowSt : string) (rf : t) : t :=
  setStatus_flag (token_flag rowSt) rf.

(** *** Building a set *)

(** The calls a loader can make on a [RevisionFile] while it builds it. *)
Inductive Call : Type :=
| call_appendFile (file : string)
| call_setStatus (rowSt : string)
| call_setStatus_flag (flag : StatusFlag)
| call_setStatus_pos (pos : Z) (flag : StatusFlag)
| call_appendStatus (pos : Z) (flag : StatusFlag)
| call_appendExtStatus (file : string)
| call_setOnlyModified (onlyModified : bool).

Definition call (c : Call) (rf : t) : result t :=
  match c with
  | call_appendFile file => Ok (appendFile file rf)
  | call_setStatus rowSt => Ok (setStatus rowSt rf)
  | call_setStatus_flag flag => Ok (setStatus_flag flag rf)
  | call_setStatus_pos pos flag => setStatus_pos pos flag rf
  | call_appendStatus pos flag => appendStatus pos flag rf
  | call_appendExtStatus file => Ok (appendExtStatus file rf)
  | call_setOnlyModified b => Ok (setOnlyModified b rf)
  end.

Fixpoint calls (cs : list Call) (rf : t) : result t :=
  match cs with
  | [] => Ok rf
  | c :: cs' => rf' ← call c rf; calls cs' rf'
  end.

(** The flag a call applies, if it applies one. *)
Definition applied_flag (c : Call) : option StatusFlag :=
  match c with
  | call_setStatus rowSt => Some (token_flag rowSt)
  | call_setStatus_flag flag
  | call_setStatus_pos _ flag
  | call_appendStatus _ flag => Some flag
  | call_appendFile _ | call_appendExtStatus _ | call_setOnlyModified _ => None
  end.

Definition is_MODIFIED (flag : StatusFlag) : bool :=
  bool_decide (flag = MODIFIED).

Definition is_setOnlyModified (c : Call) : bool :=
  match c with call_setOnlyModified _ => true | _ => false end.

End RevisionFile.

(** ** The presentation objects the widget owns *)

(** The colours of [GitQlientStyles]; each constructor stands for the value
    of the getter of that name. *)
Inductive QColor : Type :=
| getBlue
| getRed
| getOrange
| getGreen
| getTextColor.

#[global] Instance QColor_eq_dec : EqDecision QColor.
Proof. solve_decision. Defined.

(** The three list widgets of the form: [ui->untrackedFilesList],
    [ui->unstagedFilesList] and [ui->stagedFilesList]. *)
Inductive QListWidget : Type :=
| untrackedFilesList
| unstagedFilesList
| stagedFilesList.

#[global] Instance QListWidget_eq_dec : EqDecision QListWidget.
Proof. solve_decision. Defined.

(** The slots a [FileWidget::clicked] signal is connected to. *)
Inductive Slot : Type :=
| slot_resetFile
| slot_addFileToCommitList.

Module FileWidget.

Record t : Type := mk {
  icon : string;
  text : string;
  textColor : QColor;
  clicked : Slot
}.

End FileWidget.

Module QListWidgetItem.

(** The members of an item the widget reads or writes: the data stored
    under the three [GitQlientRole]s ([QVariant::toBool] of a role that was
    never set is [false]), text, tool tip, foreground, the two item flags the
    widget clears, and the widget attached with [setItemWidget]. *)
Record t : Type := mk {
  U_ListRole : option QListWidget;
  U_IsConflict : bool;
  U_Name : string;
  text : string;
  toolTip : string;
  foreground : QColor;
  ItemIsSelectable : bool;
  ItemIsEnabled : bool;
  itemWidget : option FileWidget.t
}.

End QListWidgetItem.

(** What a pass does to the presented lists, in the vocabulary of the
    reconciler's interface.  [Insert] stands for the creation of an item
    ([new QListWidgetItem]) and [Remove] for its destruction ([delete]). *)
Inductive Action : Type :=
| Insert (path : string) (bucket : QListWidget) (isConflict : bool)
         (color : QColor)
| Move (path : string) (fromBucket toBucket : QListWidget) (isConflict : bool)
       (color : QColor)
| Update (path : string) (isConflict : bool) (color : QColor)
| Remove (path : string).

Definition action_path (a : Action) : string :=
  match a with
  | Insert p _ _ _ | Move p _ _ _ _ | Update p _ _ | Remove p => p
  end.

Definition is_Insert (a : Action) : bool :=
  match a with Insert _ _ _ _ => true | _ => false end.
Definition is_Remove (a : Action) : bool :=
  match a with Remove _ => true | _ => false end.

(** ** WorkInProgressWidget *)

Module WorkInProgressWidget.

Import RevisionFile.

(** The state of the widget: the items on the heap ([items], by address,
    [nextItem] being the next address [new] hands out), the rows of the three
    list widgets, the cache of displayed files, the two text inputs of the
    commit form and the static [lastMsgBeforeError]. *)
Record t : Type := mk {
  items : gmap nat QListWidgetItem.t;
  nextItem : nat;
  rows_untracked : list nat;
  rows_unstaged : list nat;
  rows_staged : list nat;
  mCurrentFilesCache : gmap string (bool * nat);
  leCommitTitle : string;
  teDescription : string;
  lastMsgBeforeError : string
}.

Definition rows (st : t) (l : QListWidget) : list nat :=
  match l with
  | untrackedFilesList => rows_untracked st
  | unstagedFilesList => rows_unstaged st
  | stagedFilesList => rows_staged st
  end.

(** The widget right after construction: empty lists, empty cache. *)
Definition new : t :=
  {| items := ∅; nextItem := 0%nat;
     rows_untracked := []; rows_unstaged := []; rows_staged := [];
     mCurrentFilesCache := ∅;
     leCommitTitle := ""; teDescription := ""; lastMsgBeforeError := "" |}.

Definition set_cache (c : gmap string (bool * nat)) (st : t) : t :=
  {| items := items st; nextItem := nextItem st;
     rows_untracked := rows_untracked st; rows_unstaged := rows_unstaged st;
     rows_staged := rows_staged st;
     mCurrentFilesCache := c;
     leCommitTitle := leCommitTitle st; teDescription := teDescription st;
     lastMsgBeforeError := lastMsgBeforeError st |}.

(** [new QListWidgetItem(fileList)]: the item is allocated and appended to
    the rows of [fileList]. *)
Definition newItem (fileList : QListWidget) (it : QListWidgetItem.t) (st : t)
  : t :=
  let item := nextItem st in
  {| items := <[item := it]> (items st); nextItem := S item;
     rows_untracked :=
       if decide (fileList = untrackedFilesList) then rows_untracked st ++ [item]
       else rows_untracked st;
     rows_unstaged :=
       if decide (fileList = unstagedFilesList) then rows_unstaged st ++ [item]
       else rows_unstaged st;
     rows_staged :=
       if decide (fileList = stagedFilesList) then rows_staged st ++ [item]
       else rows_staged st;
     mCurrentFilesCache := mCurrentFilesCache st;
     leCommitTitle := leCommitTitle st; teDescription := teDescription st;
     lastMsgBeforeError := lastMsgBeforeError st |}.

(** [delete item]: the item leaves the heap, and the list widget that shows
    it loses the row (and the widget attached to it). *)
Definition deleteItem (item : nat) (st : t) : t :=
  {| items := delete item (items st); nextItem := nextItem st;
     rows_untracked := filter (fun r => r ≠ item) (rows_untracked st);
     rows_unstaged := filter (fun r => r ≠ item) (rows_unstaged st);
     rows_staged := filter (fun r => r ≠ item) (rows_staged st);
     mCurrentFilesCache := mCurrentFilesCache st;
     leCommitTitle := leCommitTitle st; teDescription := teDescription st;
     lastMsgBeforeError := lastMsgBeforeError st |}.

Definition getColorForFile (files : RevisionFile.t) (index : Z)
  : result QColor :=
  isUnknown ← statusCmp files index UNKNOWN;
  isInIndex ← statusCmp files index IN_INDEX;
  isConflict ← statusCmp files index CONFLICT;
  let untrackedFile := negb (isInIndex : bool) && (isUnknown : bool) in
  isDeleted ← statusCmp files index DELETED;
  if (isConflict : bool) then Ok getBlue
  else if (isDeleted : bool) then Ok getRed
  else if untrackedFile then Ok getOrange
  else
    isNew ← statusCmp files index NEW;
    if (isNew : bool) || isUnknown || isInIndex then Ok getGreen
    else Ok getTextColor.

Definition prepareCache (st : t) : t :=
  set_cache ((fun file => (false, file.2)) <$> mCurrentFilesCache st) st.

(** A [QMap] is iterated in the order of its keys. *)
Definition key_le (e1 e2 : string * (bool * nat)) : Prop :=
  String.leb e1.1 e2.1 = true.

#[global] Instance key_le_dec e1 e2 : Decision (key_le e1 e2).
Proof. unfold key_le. apply _. Defined.

Definition QMap_entries (m : gmap string (bool * nat))
  : list (string * (bool * nat)) :=
  merge_sort key_le (map_to_list m).

(** One turn of the loop of [clearCache], at the entry [it]. *)
Definition clearCache_step (acc : t * list Action)
    (it : string * (bool * nat)) : t * list Action :=
  let '(st, removed) := acc in
  if negb it.2.1 then
    (set_cache (delete it.1 (mCurrentFilesCache st)) (deleteItem it.2.2 st),
     removed ++ [Remove it.1])
  else (st, removed).

Definition clearCache (st : t) : t * list Action :=
  foldl clearCache_step (st, []) (QMap_entries (mCurrentFilesCache st)).

(** The body of the loop of [insertFiles], at index [i]. *)
Definition insertFile (files : RevisionFile.t) (fileList : QListWidget)
    (i : Z) (st : t) : result (t * list Action) :=
  fileName ← getFile files i;
  if negb (bool_decide (is_Some (mCurrentFilesCache st !! fileName))) then
    isUnknown ← statusCmp files i UNKNOWN;
    isInIndex ← statusCmp files i IN_INDEX;
    isConflict ← statusCmp files i CONFLICT;
    let untrackedFile := negb (isInIndex : bool) && (isUnknown : bool) in
    let staged := isInIndex && negb isUnknown && negb isConflict in
    let parent :=
      if untrackedFile then untrackedFilesList
      else if staged then stagedFilesList
      else fileList in
    let item := nextItem st in
    let selectable := negb (bool_decide (fileList = stagedFilesList)) in
    let newName := (fileName +:+ " (conflicts")%string in
    let text := if (isConflict : bool) then newName else fileName in
    textColor ← getColorForFile files i;
    let fileWidget :=
      {| FileWidget.icon :=
           if negb untrackedFile && staged then ":/icons/remove"
           else ":/icons/add";
         FileWidget.text := text;
         FileWidget.textColor := textColor;
         FileWidget.clicked :=
           if staged then slot_resetFile else slot_addFileToCommitList |} in
    let it :=
      {| QListWidgetItem.U_ListRole := Some parent;
         QListWidgetItem.U_IsConflict := isConflict;
         QListWidgetItem.U_Name := text;
         QListWidgetItem.text := "";
         QListWidgetItem.toolTip := fileName;
         QListWidgetItem.foreground := textColor;
         QListWidgetItem.ItemIsSelectable := selectable;
         QListWidgetItem.ItemIsEnabled := selectable;
         QListWidgetItem.itemWidget := Some fileWidget |} in
    let st' := newItem fileList it st in
    Ok (set_cache (<[fileName := (true, item)]> (mCurrentFilesCache st')) st',
          [Insert fileName parent isConflict textColor])
  else
    Ok (set_cache (alter (fun file => (true, file.2)) fileName
                       (mCurrentFilesCache st)) st,
          []).

(** The loop of [insertFiles] over the indices [is]. *)
Fixpoint insertFiles_from (files : RevisionFile.t) (fileList : QListWidget)
    (indices : list Z) (st : t) : result (t * list Action) :=
  match indices with
  | [] => Ok (st, [])
  | i :: indices' =>
      '(st1, a1) ← insertFile files fileList i st;
      '(st2, a2) ← insertFiles_from files fileList indices' st1;
      Ok (st2, a1 ++ a2)
  end.

Definition insertFiles (files : RevisionFile.t) (fileList : QListWidget)
    (st : t) : result (t * list Action) :=
  insertFiles_from files fileList
    (Z.of_nat <$> seq 0 (Z.to_nat (count files))) st.

(** [configure], from the point where [files] has been fetched from the
    revisions cache (a commit without parents returns before that): the
    three steps of a pass.  The counter labels and the state of the commit
    button are left out. *)
Definition configure (files : RevisionFile.t) (st : t)
  : result (t * list Action) :=
  let st0 := prepareCache st in
  '(st1, inserted) ← insertFiles files unstagedFilesList st0;
  let '(st2, removed) := clearCache st1 in
  Ok (st2, inserted ++ removed).

(** *** Notions used to state the properties of a pass *)

(** The entries of a cache listing that a sweep erases. *)
Definition swept (l : list (string * (bool * nat)))
  : list (string * (bool * nat)) :=
  filter (fun it => it.2.1 = false) l.

(** Two records never share an item, and every cached address was handed
    out by [new]: what allocation guarantees for the cache. *)
Definition cache_inj (st : t) : Prop :=
  NoDup ((map_to_list (mCurrentFilesCache st)).*2.*2).

Definition cache_below (st : t) : Prop :=
  map_Forall (fun _ file => (file.2 < nextItem st)%nat) (mCurrentFilesCache st).

Definition sound (st : t) : Prop := cache_inj st /\ cache_below st.

#[global] Instance sound_dec st : Decision (sound st).
Proof. unfold sound, cache_inj, cache_below. apply _. Defined.

(** What the loop of [insertFiles] has done once it has visited the paths
    [ps], from the widget [st] to the widget [st'] with the actions [acts]:
    the records of the cache keep their items and are marked seen when their
    path was visited, each visited path that was not cached has a record with
    a fresh item, nothing else enters the cache, the items allocated before
    the loop are untouched, and an [Insert] is emitted for the paths that
    were not cached and for them only, once each. *)
Record visited (ps : list string) (st st' : t) (acts : list Action) : Prop := {
  visited_known : forall p s item,
    mCurrentFilesCache st !! p = Some (s, item) ->
    mCurrentFilesCache st' !! p = Some (s || bool_decide (p ∈ ps), item);
  visited_new : forall p,
    mCurrentFilesCache st !! p = None -> p ∈ ps ->
    exists item,
      mCurrentFilesCache st' !! p = Some (true, item) /\
      (nextItem st <= item < nextItem st')%nat;
  visited_other : forall p,
    mCurrentFilesCache st !! p = None -> p ∉ ps ->
    mCurrentFilesCache st' !! p = None;
  visited_nextItem : (nextItem st <= nextItem st')%nat;
  visited_items : forall item,
    (item < nextItem st)%nat -> items st' !! item = items st !! item;
  visited_rows : forall item fileList,
    (item < nextItem st)%nat ->
    item ∈ rows st' fileList <-> item ∈ rows st fileList;
  visited_actions :
    Forall (fun a => is_Insert a = true /\
                     mCurrentFilesCache st !! action_path a = None /\
                     action_path a ∈ ps) acts;
  visited_inserted : forall p,
    mCurrentFilesCache st !! p = None -> p ∈ ps ->
    exists a, a ∈ acts /\ action_path a = p;
  visited_once : NoDup (action_path <$> acts)
}.

(** The cache once the records of the paths [ps] have been marked seen. *)
Definition marked (ps : list string) (c : gmap string (bool * nat))
  : gmap string (bool * nat) :=
  foldl (fun c p => alter (fun file : bool * nat => (true, file.2)) p c) c ps.

(** *** Committing *)

(** What [commitChanges] does besides changing the widget: the message box
    of the conflict case, the call of [GitLocal::commitFiles] and the signal
    that follows it. *)
Inductive Effect : Type :=
| warning (title text : string)
| commitFiles (selFiles : list string) (files : RevisionFile.t) (msg : string)
| signalChangesCommitted (success : bool).

Definition is_commitFiles (e : Effect) : bool :=
  match e with commitFiles _ _ _ => true | _ => false end.

(** The texts of the file widgets of the rows of the staged list.  Every row
    of that list carries a [FileWidget]; a row without one has no text
    here. *)
Definition getFiles (st : t) : list string :=
  (fun item =>
     match items st !! item ≫= QListWidgetItem.itemWidget with
     | Some fileWidget => FileWidget.text fileWidget
     | None => ""%string
     end) <$> rows_staged st.

(** A cached address whose item is gone carries no data. *)
Definition hasConflicts (st : t) : bool :=
  existsb
    (fun pair : string * (bool * nat) =>
       match items st !! pair.2.2 with
       | Some it => QListWidgetItem.U_IsConflict it
       | None => false
       end)
    (QMap_entries (mCurrentFilesCache st)).

(** Some record of the cache has an item that carries the conflict mark. *)
Definition conflicted (st : t) : Prop :=
  exists p seen item it,
    mCurrentFilesCache st !! p = Some (seen, item) /\
    items st !! item = Some it /\
    QListWidgetItem.U_IsConflict it = true.

Section commit.

(** [checkMsg] builds the message from the title and the description with
    regular expressions and tells whether it is usable; it is taken as
    given (the message boxes it shows itself are not traced), and so are
    the commit itself ([ret.success] of [GitLocal::commitFiles]) and the
    revision file of the work in progress that the loader puts in the
    revisions cache. *)
Variable checkMsg : string -> string -> bool * string.
Variable git_commitFiles : list string -> RevisionFile.t -> string -> bool.
Variable wipFiles : RevisionFile.t.

Definition commitChanges (st : t) : bool * t * list Effect :=
  let selFiles := getFiles st in
  if negb (bool_decide (selFiles = [])) then
    if hasConflicts st then
      (false, st,
       [warning "Impossible to commit"
          "There are files with conflicts. Please, resolve the conflicts first."])
    else
      let '(ok, msg) := checkMsg (leCommitTitle st) (teDescription st) in
      if ok then
        let files := wipFiles in
        let success := git_commitFiles selFiles files msg in
        (true,
         {| items := items st; nextItem := nextItem st;
            rows_untracked := rows_untracked st;
            rows_unstaged := rows_unstaged st;
            rows_staged := rows_staged st;
            mCurrentFilesCache := mCurrentFilesCache st;
            leCommitTitle := ""; teDescription := "";
            lastMsgBeforeError := if success then ""%string else msg |},
         [commitFiles selFiles files msg; signalChangesCommitted success])
      else (false, st, [])
  else (false, st, []).

End commit.

End WorkInProgressWidget.

(** ** The rules as the specification words them *)

Module Spec.

Import RevisionFile.

Inductive Bucket : Type :=
| untracked
| staged
| unstaged.

(** "untracked: UNKNOWN set AND IN_INDEX not set.  staged: IN_INDEX set AND
    UNKNOWN not set AND CONFLICT not set.  unstaged: everything else." *)
Definition bucket (flags : Z) : Bucket :=
  if has_flag flags UNKNOWN && negb (has_flag flags IN_INDEX) then untracked
  else if has_flag flags IN_INDEX && negb (has_flag flags UNKNOWN)
          && negb (has_flag flags CONFLICT) then staged
  else unstaged.

(** The list widget that presents a bucket. *)
Definition bucket_list (b : Bucket) : QListWidget :=
  match b with
  | untracked => untrackedFilesList
  | staged => stagedFilesList
  | unstaged => unstagedFilesList
  end.

(** "CONFLICT, then DELETED, then untracked, then (NEW or UNKNOWN or
    IN_INDEX), then default; first match wins." *)
Definition color (flags : Z) : QColor :=
  if has_flag flags CONFLICT then getBlue
  else if has_flag flags DELETED then getRed
  else if has_flag flags UNKNOWN && negb (has_flag flags IN_INDEX) then getOrange
  else if has_flag flags NEW || has_flag flags UNKNOWN
          || has_flag flags IN_INDEX then getGreen
  else getTextColor.

End Spec.

(** ** Sample sets and widgets *)

Module Samples.

Import RevisionFile WorkInProgressWidget.

Definition files_two : RevisionFile.t :=
  RevisionFile.mk [] ["a.txt"; "b.txt"]%string false
    [flags_of [MODIFIED; IN_INDEX]; flags_of [DELETED]] [].

Definition files_abc : RevisionFile.t :=
  RevisionFile.mk [] ["a"; "b"; "c"]%string false
    [flags_of [MODIFIED]; flags_of [UNKNOWN]; flags_of [IN_INDEX; MODIFIED]] [].

Definition files_acd : RevisionFile.t :=
  RevisionFile.mk [] ["a"; "c"; "d"]%string false
    [flags_of [MODIFIED]; flags_of [IN_INDEX; MODIFIED]; flags_of [NEW]] [].

(** A conflicted path, and the same path once the conflict is resolved. *)
Definition files_conflict : RevisionFile.t :=
  RevisionFile.mk [] ["x"]%string false [flags_of [CONFLICT; IN_INDEX]] [].

Definition files_resolved : RevisionFile.t :=
  RevisionFile.mk [] ["x"]%string false [flags_of [IN_INDEX]] [].

Definition files_conflict_deleted : RevisionFile.t :=
  RevisionFile.mk [] ["gone"]%string false [flags_of [CONFLICT; DELETED]] [].

(** The widget a pass leaves (the widget itself if the pass fails). *)
Definition after (files : RevisionFile.t) (st : WorkInProgressWidget.t)
  : WorkInProgressWidget.t :=
  match configure files st with
  | Ok (st', _) => st'
  | Err _ => st
  end.

Definition st_abc : WorkInProgressWidget.t :=
  after files_abc WorkInProgressWidget.new.

Definition st_conflict : WorkInProgressWidget.t :=
  after files_conflict WorkInProgressWidget.new.

(** The widget of [st_abc] in the middle of the next pass, between the loop
    over [files_acd] and the sweep. *)
Definition st_before_sweep : WorkInProgressWidget.t :=
  match insertFiles files_acd unstagedFilesList (prepareCache st_abc) with
  | Ok (st', _) => st'
  | Err _ => st_abc
  end.



(** A message check that accepts any title that is not empty, and a commit
    that succeeds. *)
Definition checkMsg_title (title description : string) : bool * string :=
  (negb (bool_decide (title = ""%string)), title).

Definition commit_succeeds (selFiles : list string) (files : RevisionFile.t)
    (msg : string) : bool := true.

End Samples.

(** ** The rest of the widget *)

Module WorkInProgressSlots.

Import RevisionFile WorkInProgressWidget.

(** *** Notions used to state the properties of the heap and of the rows *)

(** The rows of the three lists, one list after the other. *)
Definition all_rows (st : t) : list nat :=
  rows_untracked st ++ rows_unstaged st ++ rows_staged st.

(** The items the records of the cache point to. *)
Definition cached_items (st : t) : list nat :=
  (map_to_list (mCurrentFilesCache st)).*2.*2.

(** The cache, the heap and the rows agree: the records own distinct items,
    the items on the heap are those of the records, each of them is the row
    of one list, once, and [new] has not handed out their addresses yet. *)
Definition coherent (st : t) : Prop :=
  NoDup (cached_items st) /\
  list_to_set (cached_items st) = dom (items st) /\
  NoDup (all_rows st) /\
  list_to_set (all_rows st) = dom (items st) /\
  map_Forall (fun item _ => (item < nextItem st)%nat) (items st).

#[global] Instance coherent_dec st : Decision (coherent st).
Proof. unfold coherent. apply _. Defined.

(** The paths of [ps] that are not in [known], each at its first
    occurrence. *)
Fixpoint fresh_paths (known : gset string) (ps : list string) : list string :=
  match ps with
  | [] => []
  | p :: ps' =>
      if decide (p ∈ known) then fresh_paths known ps'
      else p :: fresh_paths ({[p]} ∪ known) ps'
  end.

(** *** clear *)

(** [QListWidget::clear]: every item of the list is deleted. *)
Definition clearList (l : QListWidget) (st : t) : t :=
  foldl (fun st item => deleteItem item st) st (rows st l).

(** [clear].  (The commit button and the counter labels are left out.) *)
Definition clear (st : t) : t :=
  let st1 := clearList untrackedFilesList st in
  let st2 := clearList unstagedFilesList st1 in
  let st3 := clearList stagedFilesList st2 in
  {| items := items st3; nextItem := nextItem st3;
     rows_untracked := rows_untracked st3;
     rows_unstaged := rows_unstaged st3;
     rows_staged := rows_staged st3;
     mCurrentFilesCache := ∅;
     leCommitTitle := ""; teDescription := "";
     lastMsgBeforeError := lastMsgBeforeError st3 |}.

(** *** revertAllChanges *)

(** The tool tips of the items [taken], in that order; [None] when one of
    the addresses is not on the heap (the pointer dangles). *)
Fixpoint toolTips (heap : gmap nat QListWidgetItem.t) (taken : list nat)
  : option (list string) :=
  match taken with
  | [] => Some []
  | item :: taken' =>
      it ← heap !! item;
      tips ← toolTips heap taken';
      Some (QListWidgetItem.toolTip it :: tips)
  end.

(** An item that has been taken out of its list: the view has let go of
    the widget that was attached to the row. *)
Definition withoutWidget (it : QListWidgetItem.t) : QListWidgetItem.t :=
  {| QListWidgetItem.U_ListRole := QListWidgetItem.U_ListRole it;
     QListWidgetItem.U_IsConflict := QListWidgetItem.U_IsConflict it;
     QListWidgetItem.U_Name := QListWidgetItem.U_Name it;
     QListWidgetItem.text := QListWidgetItem.text it;
     QListWidgetItem.toolTip := QListWidgetItem.toolTip it;
     QListWidgetItem.foreground := QListWidgetItem.foreground it;
     QListWidgetItem.ItemIsSelectable := QListWidgetItem.ItemIsSelectable it;
     QListWidgetItem.ItemIsEnabled := QListWidgetItem.ItemIsEnabled it;
     QListWidgetItem.itemWidget := None |}.

Section revert.

(** The outcome of [GitLocal::checkoutFile] on a path is taken as given. *)
Variable checkoutFile : string -> bool.

(** [revertAllChanges]: the rows of the unstaged list are taken from the
    last to the first ([takeItem] does not delete the item, the view drops
    the widget of the row), each item is handed to [checkoutFile] by its
    tool tip, and the outcomes are or-ed.
    The result is the widget, the paths checked out in the order of the
    calls, and whether [signalCheckoutPerformed] is emitted. *)
Definition revertAllChanges (st : t) : option (t * list string * bool) :=
  files ← toolTips (items st) (reverse (rows_unstaged st));
  let needsUpdate :=
    foldl (fun needsUpdate file => orb needsUpdate (checkoutFile file))
      false files in
  Some ({| items :=
             foldl (fun heap item => alter withoutWidget item heap)
               (items st) (reverse (rows_unstaged st));
           nextItem := nextItem st;
           rows_untracked := rows_untracked st;
           rows_unstaged := [];
           rows_staged := rows_staged st;
           mCurrentFilesCache := mCurrentFilesCache st;
           leCommitTitle := leCommitTitle st;
           teDescription := teDescription st;
           lastMsgBeforeError := lastMsgBeforeError st |},
        files, needsUpdate).

End revert.

(** *** The handler of [signalConflictsResolved] *)

(** [QString::startsWith]. *)
Fixpoint startsWith (s needle : string) : bool :=
  match needle, s with
  | EmptyString, _ => true
  | String c needle', String d s' => bool_decide (c = d) && startsWith s' needle'
  | String _ _, EmptyString => false
  end.

(** The loop of [QString::remove(const QString &)]: the occurrences of
    [needle] are dropped from the left to the right; [skip] counts the
    characters of the occurrence under way that are still to be dropped. *)
Fixpoint remove_from (needle : string) (skip : nat) (s : string) : string :=
  match s with
  | EmptyString => EmptyString
  | String c s' =>
      match skip with
      | S skip' => remove_from needle skip' s'
      | O =>
          if startsWith s needle
          then remove_from needle (Nat.pred (String.length needle)) s'
          else String c (remove_from needle 0 s')
      end
  end.

Definition QString_remove (needle s : string) : string :=
  match needle with
  | EmptyString => s
  | String _ _ => remove_from needle 0 s
  end.

(** [QChar::isSpace] on the characters of one byte: the tabulation, the
    line feed, the vertical tabulation, the form feed, the carriage return,
    the space, the next line and the no-break space. *)
Definition isSpace (c : ascii) : bool :=
  let n := nat_of_ascii c in
  bool_decide (9 <= n <= 13)%nat || bool_decide (n = 32)%nat
  || bool_decide (n = 133)%nat || bool_decide (n = 160)%nat.

Fixpoint trimmed_left (s : string) : string :=
  match s with
  | EmptyString => EmptyString
  | String c s' => if isSpace c then trimmed_left s' else s
  end.

(** What is left of [s] once the white space at its end is dropped. *)
Fixpoint trimmed_right (s : string) : string :=
  match s with
  | EmptyString => EmptyString
  | String c s' =>
      match trimmed_right s' with
      | EmptyString => if isSpace c then EmptyString else String c EmptyString
      | t => String c t
      end
  end.

(** [QString::trimmed]. *)
Definition trimmed (s : string) : string := trimmed_right (trimmed_left s).

(** [fileList->itemWidget(item)]: the widget attached to the item when the
    item is a row of [fileList], the null pointer otherwise. *)
Definition itemWidget (fileList : QListWidget) (item : nat) (st : t)
  : option FileWidget.t :=
  if decide (item ∈ rows st fileList)
  then items st !! item ≫= QListWidgetItem.itemWidget
  else None.

(** The three statements of the handler that edit the item; [None] when the
    item is not on the heap or has no widget in the unstaged list (a null
    pointer is dereferenced). *)
Definition conflictsResolved (item : nat) (st : t) : option t :=
  it ← items st !! item;
  fileWidget ← itemWidget unstagedFilesList item st;
  let it' :=
    {| QListWidgetItem.U_ListRole := QListWidgetItem.U_ListRole it;
       QListWidgetItem.U_IsConflict := false;
       QListWidgetItem.U_Name := QListWidgetItem.U_Name it;
       QListWidgetItem.text :=
         trimmed (QString_remove "(conflicts)" (FileWidget.text fileWidget));
       QListWidgetItem.toolTip := QListWidgetItem.toolTip it;
       QListWidgetItem.foreground := getGreen;
       QListWidgetItem.ItemIsSelectable := QListWidgetItem.ItemIsSelectable it;
       QListWidgetItem.ItemIsEnabled := QListWidgetItem.ItemIsEnabled it;
       QListWidgetItem.itemWidget := QListWidgetItem.itemWidget it |} in
  Some {| items := <[item := it']> (items st); nextItem := nextItem st;
          rows_untracked := rows_untracked st;
          rows_unstaged := rows_unstaged st;
          rows_staged := rows_staged st;
          mCurrentFilesCache := mCurrentFilesCache st;
          leCommitTitle := leCommitTitle st;
          teDescription := teDescription st;
          lastMsgBeforeError := lastMsgBeforeError st |}.

(** The whole handler: the edit of the item, then the pass of [configure]
    over the revision file of the work in progress. *)
Definition onConflictsResolved (files : RevisionFile.t) (item : nat) (st : t)
  : option (result (t * list Action)) :=
  st' ← conflictsResolved item st;
  Some (configure files st').

End WorkInProgressSlots.

(** ** More sample widgets *)

Module MoreSamples.

Import RevisionFile WorkInProgressWidget Samples.

(** The widget of the conflicted path x, as [insertFiles] builds it. *)
Definition widget_x : FileWidget.t :=
  {| FileWidget.icon := ":/icons/add";
     FileWidget.text := "x (conflicts";
     FileWidget.textColor := getBlue;
     FileWidget.clicked := slot_addFileToCommitList |}.

(** The item of the conflicted path x in [st_conflict]. *)
Definition item_x : QListWidgetItem.t :=
  {| QListWidgetItem.U_ListRole := Some unstagedFilesList;
     QListWidgetItem.U_IsConflict := true;
     QListWidgetItem.U_Name := "x (conflicts";
     QListWidgetItem.text := "";
     QListWidgetItem.toolTip := "x";
     QListWidgetItem.foreground := getBlue;
     QListWidgetItem.ItemIsSelectable := true;
     QListWidgetItem.ItemIsEnabled := true;
     QListWidgetItem.itemWidget := Some widget_x |}.

(** A checkout that succeeds on the path b only. *)
Definition checkout_b (file : string) : bool := bool_decide (file = "b"%string).

End MoreSamples.

(** * Properties *)

(** Closed decidable facts are settled by evaluation. *)
Ltac by_decide :=
  match goal with
  | |- ?P => refine (@bool_decide_unpack P _ _); vm_compute; exact I
  end.

(** ** QVector *)

Section QVector_facts.
Context {A : Type}.
Implicit Types (v : list A) (i : Z).

Lemma QVector_at_in_range v i :
  0 <= i < Z.of_nat (length v) ->
  exists x, QVector.at_ v i = Ok x /\ v !! Z.to_nat i = Some x.
Proof.
  intros Hi. unfold QVector.at_. rewrite bool_decide_eq_true_2 by done.
  destruct (lookup_lt_is_Some_2 v (Z.to_nat i)) as [x Hx]; [lia|].
  exists x. by rewrite Hx.
Qed.

Lemma QVector_at_out_of_range v i :
  ~ (0 <= i < Z.of_nat (length v)) -> QVector.at_ v i = Err OutOfRange.
Proof. intros Hi. unfold QVector.at_. by rewrite bool_decide_eq_false_2. Qed.

Lemma QVector_at_of_nat v (n : nat) x :
  v !! n = Some x -> QVector.at_ v (Z.of_nat n) = Ok x.
Proof.
  intros Hx. unfold QVector.at_.
  pose proof (lookup_lt_Some _ _ _ Hx).
  rewrite bool_decide_eq_true_2 by lia.
  by rewrite Nat2Z.id, Hx.
Qed.

End QVector_facts.

(** ** The flag words *)

Section flag_facts.
Import RevisionFile.

Lemma land_flag_values (a b : StatusFlag) :
  Z.land (flag_value a) (flag_value b) = if decide (a = b) then flag_value a else 0.
Proof. by destruct a, b. Qed.

Lemma flag_value_nonzero (a : StatusFlag) : flag_value a <> 0.
Proof. by destruct a. Qed.

(** A word with a single flag has that flag and no other. *)
Lemma has_flag_flag_value (a sf : StatusFlag) :
  has_flag (flag_value a) sf = bool_decide (sf = a).
Proof. by destruct a, sf. Qed.

Lemma has_flag_lor (x y : Z) (sf : StatusFlag) :
  has_flag (Z.lor x y) sf = has_flag x sf || has_flag y sf.
Proof.
  unfold has_flag. rewrite Z.land_lor_distr_l.
  destruct (Z.eqb_spec (Z.land x (flag_value sf)) 0) as [-> | Hx].
  - by rewrite Z.lor_0_l.
  - simpl. apply negb_true_iff, Z.eqb_neq. intros H.
    apply Z.lor_eq_0_iff in H. tauto.
Qed.

(** A word built from a list of flags has exactly the flags of the list. *)
Lemma has_flag_flags_of (sfs : list StatusFlag) (sf : StatusFlag) :
  has_flag (flags_of sfs) sf = bool_decide (sf ∈ sfs).
Proof.
  induction sfs as [|a sfs IH]; simpl.
  - by destruct sf.
  - rewrite has_flag_lor, IH, has_flag_flag_value.
    destruct (decide (sf = a)) as [-> | Hne].
    + rewrite bool_decide_eq_true_2 by done. simpl. symmetry.
      apply bool_decide_eq_true_2. left.
    + rewrite (bool_decide_eq_false_2 (sf = a)) by done. simpl.
      apply bool_decide_ext. rewrite elem_of_cons. tauto.
Qed.

End flag_facts.

(** ** RevisionFile *)

Section RevisionFile_facts.
Import RevisionFile.
Implicit Types (rf : RevisionFile.t) (index idx pos : Z) (sf flag : StatusFlag).

Lemma statusCmp_in_range rf idx status :
  0 <= idx < count rf ->
  getStatus rf idx = Ok status ->
  forall sf, statusCmp rf idx sf = Ok (has_flag status sf).
Proof.
  intros Hidx Hst sf. unfold statusCmp.
  rewrite bool_decide_eq_true_2 by done. by rewrite Hst.
Qed.

Lemma statusCmp_out_of_range rf idx sf :
  ~ (0 <= idx < count rf) -> statusCmp rf idx sf = Err OutOfRange.
Proof. intros Hidx. unfold statusCmp. by rewrite bool_decide_eq_false_2. Qed.

Lemma getStatus_aligned rf idx :
  aligned rf -> 0 <= idx < count rf ->
  exists status,
    getStatus rf idx = Ok status /\ mFileStatus rf !! Z.to_nat idx = Some status.
Proof.
  unfold aligned, count, getStatus. intros Hal Hidx.
  apply QVector_at_in_range. lia.
Qed.

Lemma statusCmp_written rf idx (l : list Z) status :
  0 <= idx < count rf ->
  length l = length (mFiles rf) ->
  forall rf',
    mFiles rf' = mFiles rf ->
    mFileStatus rf' = <[Z.to_nat idx := status]> l ->
    forall sf, statusCmp rf' idx sf = Ok (has_flag status sf).
Proof.
  intros Hidx Hlen rf' Hfiles Hstatus sf.
  assert (0 <= idx < count rf') as Hidx' by (unfold count in *; by rewrite Hfiles).
  apply statusCmp_in_range; [done|].
  unfold getStatus. rewrite Hstatus.
  replace idx with (Z.of_nat (Z.to_nat idx)) at 2 by lia.
  apply QVector_at_of_nat, list_lookup_insert_eq. unfold count in Hidx. lia.
Qed.

(** C7. On an aligned set, [getFile] returns the path stored at a valid index
    and [statusCmp] reports the flags of the word stored there: for a word
    built from a list of flags exactly the flags of the list, after
    [setStatus(index, flag)] exactly [flag], after [appendStatus(index, flag)]
    the flags it had and [flag].  At every index outside [[0, count())] both
    accessors fail with [OutOfRange]. *)
Theorem C7_index_accessors rf index :
  aligned rf ->
  (0 <= index < count rf ->
     (exists path,
        mFiles rf !! Z.to_nat index = Some path /\ getFile rf index = Ok path) /\
     (exists status,
        mFileStatus rf !! Z.to_nat index = Some status /\
        (forall sf, statusCmp rf index sf = Ok (has_flag status sf)) /\
        (forall sfs sf, status = flags_of sfs ->
           statusCmp rf index sf = Ok (bool_decide (sf ∈ sfs))) /\
        (forall flag, exists rf',
           appendStatus index flag rf = Ok rf' /\
           getFile rf' index = getFile rf index /\
           forall sf, statusCmp rf' index sf =
                        Ok (has_flag status sf || bool_decide (sf = flag)))) /\
     (forall flag, exists rf',
        setStatus_pos index flag rf = Ok rf' /\
        getFile rf' index = getFile rf index /\
        forall sf, statusCmp rf' index sf = Ok (bool_decide (sf = flag)))) /\
  (~ (0 <= index < count rf) ->
     getFile rf index = Err OutOfRange /\
     forall sf, statusCmp rf index sf = Err OutOfRange).
Proof.
  intros Hal. split.
  - intros Hidx. split_and!.
    + destruct (QVector_at_in_range (mFiles rf) index Hidx) as (path & ? & ?).
      by exists path.
    + destruct (getStatus_aligned rf index Hal Hidx) as (status & Hget & Hlk).
      exists status. split_and!; [done | by apply statusCmp_in_range | |].
      * intros sfs sf ->.
        rewrite (statusCmp_in_range _ _ _ Hidx Hget). by rewrite has_flag_flags_of.
      * intros flag. unfold appendStatus. unfold getStatus in Hget.
        rewrite Hget. simpl. eexists. split; [reflexivity|]. split; [done|].
        intros sf.
        rewrite (statusCmp_written rf index (mFileStatus rf)
                   (Z.lor status (flag_value flag))); try done.
        by rewrite has_flag_lor, has_flag_flag_value.
    + intros flag. unfold setStatus_pos.
      rewrite bool_decide_eq_true_2
        by (unfold aligned, count in *; by rewrite <- Hal).
      eexists. split; [reflexivity|]. split; [done|]. intros sf.
      rewrite (statusCmp_written rf index (mFileStatus rf) (flag_value flag));
        try done.
      by rewrite has_flag_flag_value.
  - intros Hidx. split.
    + by apply QVector_at_out_of_range.
    + intros sf. by apply statusCmp_out_of_range.
Qed.

Lemma C7_index_accessors_witness :
  aligned Samples.files_two /\
  getFile Samples.files_two 1 = Ok "b.txt"%string /\
  statusCmp Samples.files_two 0 IN_INDEX = Ok true /\
  statusCmp Samples.files_two 0 DELETED = Ok false /\
  getFile Samples.files_two 2 = Err OutOfRange /\
  statusCmp Samples.files_two (-1) MODIFIED = Err OutOfRange.
Proof.
  assert (Hal : aligned Samples.files_two) by reflexivity.
  pose proof (C7_index_accessors Samples.files_two 0 Hal) as [H0 _].
  pose proof (C7_index_accessors Samples.files_two 1 Hal) as [H1 _].
  pose proof (C7_index_accessors Samples.files_two 2 Hal) as [_ H2].
  pose proof (C7_index_accessors Samples.files_two (-1) Hal) as [_ Hm].
  split; [exact Hal|].
  destruct H1 as [(path & Hp & Hget) _]; [vm_compute; intuition congruence|].
  destruct H0 as (_ & (status & Hs & _ & Hfl & _) & _);
    [vm_compute; intuition congruence|].
  vm_compute in Hp, Hs. simplify_eq.
  split; [exact Hget|].
  split; [exact (Hfl [MODIFIED; IN_INDEX] IN_INDEX eq_refl)|].
  split; [exact (Hfl [MODIFIED; IN_INDEX] DELETED eq_refl)|].
  split; [apply H2; vm_compute; intuition congruence|].
  apply Hm. vm_compute. intuition congruence.
Defined.

End RevisionFile_facts.

Section RevisionFile_building.
Import RevisionFile.
Implicit Types (rf : RevisionFile.t) (rowSt rest : string) (c d : ascii).

Lemma token_flag_not_IN_INDEX rowSt : token_flag rowSt <> IN_INDEX.
Proof.
  unfold token_flag.
  repeat (case_match; try done).
Qed.

(** C8. [setStatus(rowSt)] appends one entry whose word holds exactly one
    flag, the one the table gives for the prefix of the token, and leaves the
    entries before it alone; for no token is that flag [IN_INDEX]. *)
Theorem C8_setStatus_token_table rowSt rf :
  exists flag,
    mFileStatus (setStatus rowSt rf) = mFileStatus rf ++ [flag_value flag] /\
    mFiles (setStatus rowSt rf) = mFiles rf /\
    (forall sf, has_flag (flag_value flag) sf = bool_decide (sf = flag)) /\
    flag <> IN_INDEX /\
    (forall rest, rowSt = String "M" rest -> flag = MODIFIED) /\
    (forall rest, rowSt = String "A" rest -> flag = NEW) /\
    (forall rest, rowSt = String "D" rest -> flag = DELETED) /\
    (forall d rest, rowSt = String "R" (String d rest) -> is_digit d = true ->
       flag = RENAMED) /\
    (forall d rest, rowSt = String "C" (String d rest) -> is_digit d = true ->
       flag = COPIED) /\
    (forall rest, rowSt = String "U" rest -> flag = CONFLICT) /\
    (rowSt = ""%string -> flag = UNKNOWN) /\
    (forall c rest, rowSt = String c rest ->
       c ∉ ["M"; "A"; "D"; "R"; "C"; "U"]%char -> flag = UNKNOWN) /\
    (forall c, c = "R"%char \/ c = "C"%char -> rowSt = String c "" ->
       flag = UNKNOWN) /\
    (forall c d rest, c = "R"%char \/ c = "C"%char ->
       rowSt = String c (String d rest) -> is_digit d = false ->
       flag = UNKNOWN).
Proof.
  exists (token_flag rowSt).
  split; [done|]. split; [done|].
  split; [intros sf; apply has_flag_flag_value|].
  split; [apply token_flag_not_IN_INDEX|].
  split_and!.
  - by intros rest ->.
  - by intros rest ->.
  - by intros rest ->.
  - intros d rest -> Hd. simpl. by rewrite Hd.
  - intros d rest -> Hd. simpl. by rewrite Hd.
  - by intros rest ->.
  - by intros ->.
  - intros c rest -> Hc.
    rewrite !not_elem_of_cons in Hc. destruct Hc as (?&?&?&?&?&?&_).
    unfold token_flag. repeat (case_match; try done); simplify_eq.
  - by intros c [-> | ->] ->.
  - intros c d rest [-> | ->] -> Hd; simpl; by rewrite Hd.
Qed.

(** The tokens the specification names. *)
Lemma setStatus_examples rf :
  mFileStatus (setStatus "M" rf) = mFileStatus rf ++ [flags_of [MODIFIED]] /\
  mFileStatus (setStatus "R100" rf) = mFileStatus rf ++ [flags_of [RENAMED]] /\
  mFileStatus (setStatus "C100" rf) = mFileStatus rf ++ [flags_of [COPIED]] /\
  mFileStatus (setStatus "Z" rf) = mFileStatus rf ++ [flags_of [UNKNOWN]].
Proof. done. Qed.

End RevisionFile_building.

Lemma C8_setStatus_token_table_witness :
  exists flag,
    RevisionFile.mFileStatus (RevisionFile.setStatus "R100" RevisionFile.new)
      = [RevisionFile.flag_value flag] /\
    flag = RevisionFile.RENAMED /\ flag <> RevisionFile.IN_INDEX.
Proof.
  destruct (C8_setStatus_token_table "R100" RevisionFile.new)
    as (flag & Hst & _ & _ & Hidx & _ & _ & _ & HR & _).
  exists flag. split; [exact Hst|].
  split; [exact (HR "1"%char "00"%string eq_refl eq_refl) | exact Hidx].
Defined.

Section onlyModified.
Import RevisionFile.
Implicit Types (rf : RevisionFile.t) (c : Call) (cs : list Call).

Lemma call_onlyModified c rf rf' :
  is_setOnlyModified c = false ->
  call c rf = Ok rf' ->
  mOnlyModified rf' =
    mOnlyModified rf && forallb is_MODIFIED (option_list (applied_flag c)).
Proof.
  intros Hc Hcall. destruct c; simpl in *; try discriminate.
  all: try (injection Hcall as <-; simpl; by rewrite ?andb_true_r).
  - unfold setStatus_pos in Hcall. case_bool_decide; [|done].
    injection Hcall as <-. simpl. by rewrite andb_true_r.
  - unfold appendStatus in Hcall.
    destruct (QVector.at_ (mFileStatus rf) pos); [|done].
    injection Hcall as <-. simpl. by rewrite andb_true_r.
Qed.

Lemma calls_onlyModified cs : forall rf rf',
  forallb (fun c => negb (is_setOnlyModified c)) cs = true ->
  calls cs rf = Ok rf' ->
  mOnlyModified rf' =
    mOnlyModified rf && forallb is_MODIFIED (omap applied_flag cs).
Proof.
  induction cs as [|c cs IH]; intros rf rf' Hcs Hrun; simpl in *.
  - simplify_eq. by rewrite andb_true_r.
  - apply andb_true_iff in Hcs as [Hc Hcs]. apply negb_true_iff in Hc.
    destruct (call c rf) as [rf1|] eqn:Hcall; [|done]. simpl in Hrun.
    rewrite (IH _ _ Hcs Hrun), (call_onlyModified _ _ _ Hc Hcall).
    destruct (applied_flag c); simpl; by rewrite ?andb_true_r, ?andb_assoc.
Qed.

Lemma calls_app cs1 cs2 rf :
  calls (cs1 ++ cs2) rf = rf1 ← calls cs1 rf; calls cs2 rf1.
Proof.
  revert rf. induction cs1 as [|c cs1 IH]; intros rf; simpl; [done|].
  destruct (call c rf); simpl; [apply IH | done].
Qed.

(** The calls that take no position never fail. *)
Lemma calls_total cs rf :
  Forall (fun c => match c with
                   | call_setStatus_pos _ _ | call_appendStatus _ _ => False
                   | _ => True
                   end) cs ->
  exists rf', calls cs rf = Ok rf'.
Proof.
  intros Hcs. revert rf. induction Hcs as [|c cs Hc _ IH]; intros rf; simpl.
  - by eexists.
  - destruct c; try done; simpl; apply IH.
Qed.

(** The claim C6 as it is worded does not hold: the header has a public
    setter, and a set that received a [DELETED] entry has [mOnlyModified]
    back to [true] after [setOnlyModified(true)]. *)
Lemma C6_counterexample :
  ~ (forall cs rf',
       calls cs RevisionFile.new = Ok rf' ->
       (exists flag, flag ∈ omap applied_flag cs /\ flag <> MODIFIED) ->
       mOnlyModified rf' = false).
Proof.
  intros H.
  specialize (H [call_appendFile "a"; call_setStatus "D";
                 call_setOnlyModified true]
                (setOnlyModified true
                   (setStatus "D" (appendFile "a" RevisionFile.new)))
                eq_refl).
  discriminate H. exists DELETED. split; [|done]. simpl. left.
Qed.

(** C6, amended.  A fresh set has [mOnlyModified = true].  Along any calls
    that apply flags ([setStatus] in its three forms, [appendStatus]) or
    append paths and descriptors, the member is the conjunction of its value
    before and of "every applied flag is exactly MODIFIED": it stays [true]
    under pure MODIFIED calls, becomes [false] with the first other flag, and
    once [false] it stays [false] under all such calls.  Only
    [setOnlyModified(b)] overrides that: after it the member is [b]. *)
Theorem C6_onlyModified :
  mOnlyModified RevisionFile.new = true /\
  (forall cs rf rf',
     forallb (fun c => negb (is_setOnlyModified c)) cs = true ->
     calls cs rf = Ok rf' ->
     mOnlyModified rf' =
       mOnlyModified rf && forallb is_MODIFIED (omap applied_flag cs)) /\
  (forall cs rf rf',
     forallb (fun c => negb (is_setOnlyModified c)) cs = true ->
     calls cs rf = Ok rf' ->
     mOnlyModified rf = false -> mOnlyModified rf' = false) /\
  (forall cs b rf rf',
     calls (cs ++ [call_setOnlyModified b]) rf = Ok rf' ->
     mOnlyModified rf' = b).
Proof.
  split; [done|]. split; [apply calls_onlyModified|]. split.
  - intros cs rf rf' Hcs Hrun Hrf.
    by rewrite (calls_onlyModified _ _ _ Hcs Hrun), Hrf.
  - intros cs b rf rf'. rewrite calls_app.
    destruct (calls cs rf) as [rf1|]; simpl; [|done]. by intros [= <-].
Qed.

Lemma C6_onlyModified_witness :
  (exists rf',
     calls [call_appendFile "a"; call_setStatus "M";
            call_appendFile "b"; call_setStatus "D";
            call_appendFile "c"; call_setStatus "M"] RevisionFile.new = Ok rf' /\
     mOnlyModified rf' = false) /\
  (exists rf',
     calls [call_appendFile "a"; call_setStatus "M";
            call_appendFile "b"; call_setStatus_flag MODIFIED]
       RevisionFile.new = Ok rf' /\
     mOnlyModified rf' = true).
Proof.
  destruct C6_onlyModified as (_ & Hcalls & _).
  split; eexists; (split; [reflexivity|]).
  - exact (Hcalls [call_appendFile "a"; call_setStatus "M";
                   call_appendFile "b"; call_setStatus "D";
                   call_appendFile "c"; call_setStatus "M"]
             RevisionFile.new _ eq_refl eq_refl).
  - exact (Hcalls [call_appendFile "a"; call_setStatus "M";
                   call_appendFile "b"; call_setStatus_flag MODIFIED]
             RevisionFile.new _ eq_refl eq_refl).
Defined.

End onlyModified.

(** ** The colour and the bucket of an entry *)

Section classification.
Import RevisionFile WorkInProgressWidget.
Implicit Types (files : RevisionFile.t) (st : WorkInProgressWidget.t)
  (i index : Z) (status : Z) (fileList : QListWidget).

Lemma getFile_in_range files i fileName :
  getFile files i = Ok fileName -> 0 <= i < count files.
Proof.
  unfold getFile, QVector.at_, count. case_bool_decide; [done | discriminate].
Qed.

(** [getColorForFile] computes the colour the priority rule gives for the
    flag word of the entry. *)
Lemma getColorForFile_spec files index status :
  0 <= index < count files ->
  getStatus files index = Ok status ->
  getColorForFile files index = Ok (Spec.color status).
Proof.
  intros Hidx Hst. unfold getColorForFile, Spec.color.
  rewrite !(statusCmp_in_range _ _ _ Hidx Hst). simpl.
  destruct (has_flag status CONFLICT); [done|].
  destruct (has_flag status DELETED); [done|].
  destruct (has_flag status IN_INDEX), (has_flag status UNKNOWN); simpl;
    rewrite ?(statusCmp_in_range _ _ _ Hidx Hst); simpl;
    rewrite ?orb_true_r; try done.
  by destruct (has_flag status NEW).
Qed.

(** C3. The colour of an entry is the first match of: CONFLICT (blue),
    DELETED (red), untracked (orange), NEW or UNKNOWN or IN_INDEX (green),
    default text colour; an entry with both CONFLICT and DELETED gets the
    conflict colour, not the one of deleted entries. *)
Theorem C3_color_priority files index status :
  0 <= index < count files ->
  getStatus files index = Ok status ->
  getColorForFile files index =
    Ok (if has_flag status CONFLICT then getBlue
        else if has_flag status DELETED then getRed
        else if has_flag status UNKNOWN && negb (has_flag status IN_INDEX)
             then getOrange
        else if has_flag status NEW || has_flag status UNKNOWN
                || has_flag status IN_INDEX then getGreen
        else getTextColor) /\
  (has_flag status CONFLICT = true -> has_flag status DELETED = true ->
   getColorForFile files index = Ok getBlue /\
   getColorForFile files index <> Ok getRed).
Proof.
  intros Hidx Hst. rewrite (getColorForFile_spec _ _ _ Hidx Hst).
  split; [done|]. intros Hc _. unfold Spec.color. by rewrite Hc.
Qed.

(** The item [insertFiles] creates for a path that is not in the cache. *)
Lemma insertFile_new files fileList i st fileName status :
  getFile files i = Ok fileName ->
  getStatus files i = Ok status ->
  mCurrentFilesCache st !! fileName = None ->
  exists it,
    insertFile files fileList i st =
      Ok (set_cache (<[fileName := (true, nextItem st)]> (mCurrentFilesCache st))
            (newItem fileList it st),
          [Insert fileName
             (if has_flag status UNKNOWN && negb (has_flag status IN_INDEX)
              then untrackedFilesList
              else if has_flag status IN_INDEX && negb (has_flag status UNKNOWN)
                      && negb (has_flag status CONFLICT)
              then stagedFilesList else fileList)
             (has_flag status CONFLICT) (Spec.color status)]) /\
    QListWidgetItem.U_ListRole it =
      Some (if has_flag status UNKNOWN && negb (has_flag status IN_INDEX)
            then untrackedFilesList
            else if has_flag status IN_INDEX && negb (has_flag status UNKNOWN)
                    && negb (has_flag status CONFLICT)
            then stagedFilesList else fileList) /\
    QListWidgetItem.U_IsConflict it = has_flag status CONFLICT /\
    QListWidgetItem.foreground it = Spec.color status /\
    QListWidgetItem.toolTip it = fileName.
Proof.
  intros Hfile Hst Hnew.
  pose proof (getFile_in_range _ _ _ Hfile) as Hidx.
  unfold insertFile. rewrite Hfile. simpl. rewrite Hnew.
  rewrite bool_decide_eq_false_2 by (by intros [? ?]). simpl.
  rewrite !(statusCmp_in_range _ _ _ Hidx Hst). simpl.
  rewrite (getColorForFile_spec _ _ _ Hidx Hst). simpl.
  rewrite !(andb_comm (negb (has_flag status IN_INDEX))
              (has_flag status UNKNOWN)).
  eexists. split; [reflexivity|]. by split_and!.
Qed.

(** For a path that is in the cache [insertFiles] sets the seen bit of its
    record and does nothing else. *)
Lemma insertFile_known files fileList i st fileName seen item :
  getFile files i = Ok fileName ->
  mCurrentFilesCache st !! fileName = Some (seen, item) ->
  insertFile files fileList i st =
    Ok (set_cache (<[fileName := (true, item)]> (mCurrentFilesCache st)) st, []).
Proof.
  intros Hfile Hknown. unfold insertFile. rewrite Hfile. simpl. rewrite Hknown.
  rewrite bool_decide_eq_true_2 by done. simpl.
  do 3 f_equal. apply map_eq. intros k.
  destruct (decide (fileName = k)) as [<- | Hne].
  - by rewrite lookup_alter_eq, lookup_insert_eq, Hknown.
  - by rewrite lookup_alter_ne, lookup_insert_ne.
Qed.

(** C2. The bucket recorded for a new entry (the list stored under
    [U_ListRole], on a pass over the unstaged list as [configure] runs it)
    depends on the flag word alone and is the one of the rule: untracked iff
    UNKNOWN and not IN_INDEX, staged iff IN_INDEX and neither UNKNOWN nor
    CONFLICT, unstaged otherwise; the conflict mark is the CONFLICT flag.
    So [{UNKNOWN}] is untracked, [{IN_INDEX, MODIFIED}] staged,
    [{IN_INDEX, UNKNOWN}] unstaged and [{CONFLICT, IN_INDEX}] unstaged with
    the conflict mark. *)
Theorem C2_bucket_classification files i st fileName status :
  getFile files i = Ok fileName ->
  getStatus files i = Ok status ->
  mCurrentFilesCache st !! fileName = None ->
  (exists st' it color,
     insertFile files unstagedFilesList i st =
       Ok (st', [Insert fileName (Spec.bucket_list (Spec.bucket status))
                   (has_flag status CONFLICT) color]) /\
     mCurrentFilesCache st' !! fileName = Some (true, nextItem st) /\
     items st' !! nextItem st = Some it /\
     QListWidgetItem.U_ListRole it =
       Some (Spec.bucket_list (Spec.bucket status)) /\
     QListWidgetItem.U_IsConflict it = has_flag status CONFLICT) /\
  (Spec.bucket status = Spec.untracked <->
     has_flag status UNKNOWN = true /\ has_flag status IN_INDEX = false) /\
  (Spec.bucket status = Spec.staged <->
     has_flag status IN_INDEX = true /\ has_flag status UNKNOWN = false /\
     has_flag status CONFLICT = false) /\
  (status = flags_of [UNKNOWN] -> Spec.bucket status = Spec.untracked) /\
  (status = flags_of [IN_INDEX; MODIFIED] -> Spec.bucket status = Spec.staged) /\
  (status = flags_of [IN_INDEX; UNKNOWN] -> Spec.bucket status = Spec.unstaged) /\
  (status = flags_of [CONFLICT; IN_INDEX] ->
     Spec.bucket status = Spec.unstaged /\ has_flag status CONFLICT = true).
Proof.
  intros Hfile Hst Hnew. split_and!.
  - destruct (insertFile_new files unstagedFilesList i st fileName status)
      as (it & Hins & Hrole & Hconf & _); [done..|].
    eexists _, it, _. split_and!.
    + rewrite Hins. do 3 f_equal. unfold Spec.bucket.
      by repeat case_match.
    + simpl. by rewrite lookup_insert_eq.
    + simpl. by rewrite lookup_insert_eq.
    + rewrite Hrole. f_equal. unfold Spec.bucket. by repeat case_match.
    + done.
  - unfold Spec.bucket.
    destruct (has_flag status UNKNOWN), (has_flag status IN_INDEX),
      (has_flag status CONFLICT); simpl;
      intuition congruence.
  - unfold Spec.bucket.
    destruct (has_flag status UNKNOWN), (has_flag status IN_INDEX),
      (has_flag status CONFLICT); simpl;
      intuition congruence.
  - by intros ->.
  - by intros ->.
  - by intros ->.
  - by intros ->.
Qed.

End classification.

(** ** The sweep *)

Section sweep.
Import WorkInProgressWidget.
Implicit Types (st : WorkInProgressWidget.t) (l : list (string * (bool * nat)))
  (removed : list Action) (k p : string) (item : nat).

Lemma filter_Forall {A} (P : A -> Prop) `{!forall x, Decision (P x)}
    (xs : list A) :
  Forall P xs -> filter P xs = xs.
Proof.
  induction 1 as [|x xs Hx _ IH]; [done|].
  by rewrite filter_cons_True, IH.
Qed.

Lemma swept_cons_unseen k item l :
  swept ((k, (false, item)) :: l) = (k, (false, item)) :: swept l.
Proof. unfold swept. by rewrite filter_cons_True. Qed.

Lemma swept_cons_seen k item l : swept ((k, (true, item)) :: l) = swept l.
Proof. unfold swept. by rewrite filter_cons_False. Qed.

Lemma elem_of_swept k s item l :
  (k, (s, item)) ∈ swept l <-> s = false /\ (k, (s, item)) ∈ l.
Proof. unfold swept. by rewrite list_elem_of_filter. Qed.

(** The loop of [clearCache] over a listing [l]: what it has done to the
    widget and which actions it has emitted when it ends. *)
Lemma clearCache_fold l : forall st removed,
  let r := foldl clearCache_step (st, removed) l in
  r.2 = removed ++ (Remove <$> (swept l).*1) /\
  (forall k, mCurrentFilesCache r.1 !! k =
     if bool_decide (k ∈ (swept l).*1) then None
     else mCurrentFilesCache st !! k) /\
  (forall item, items r.1 !! item =
     if bool_decide (item ∈ (swept l).*2.*2) then None else items st !! item) /\
  (forall fileList, rows r.1 fileList =
     filter (fun row => row ∉ (swept l).*2.*2) (rows st fileList)) /\
  nextItem r.1 = nextItem st /\
  leCommitTitle r.1 = leCommitTitle st /\
  teDescription r.1 = teDescription st /\
  lastMsgBeforeError r.1 = lastMsgBeforeError st.
Proof.
  induction l as [|[k [[] item]] l IH]; intros st removed.
  - simpl. rewrite app_nil_r. split_and!; try done.
    intros fileList. symmetry. apply filter_Forall.
    apply Forall_forall. intros row _. apply not_elem_of_nil.
  - rewrite swept_cons_seen. apply (IH st removed).
  - rewrite swept_cons_unseen. simpl foldl.
    specialize (IH (set_cache (delete k (mCurrentFilesCache st))
                      (deleteItem item st)) (removed ++ [Remove k])).
    simpl in IH. destruct IH as (Hacts & Hcache & Hitems & Hrows & Hrest).
    cbv zeta. split_and!.
    + rewrite Hacts. by rewrite <- app_assoc.
    + intros k'. rewrite Hcache. simpl.
      destruct (decide (k' = k)) as [-> | Hne].
      * rewrite (bool_decide_eq_true_2 (k ∈ k :: _)) by left.
        case_bool_decide; [done | apply lookup_delete_eq].
      * rewrite lookup_delete_ne by done.
        apply (f_equal (fun b : bool => if b then _ else _)).
        apply bool_decide_ext. rewrite elem_of_cons. tauto.
    + intros item'. rewrite Hitems. simpl.
      destruct (decide (item' = item)) as [-> | Hne].
      * rewrite (bool_decide_eq_true_2 (item ∈ item :: _)) by left.
        case_bool_decide; [done | apply lookup_delete_eq].
      * rewrite lookup_delete_ne by done.
        apply (f_equal (fun b : bool => if b then _ else _)).
        apply bool_decide_ext. rewrite elem_of_cons. tauto.
    + intros fileList. rewrite Hrows. simpl.
      destruct fileList; simpl; rewrite list_filter_filter;
        apply list_filter_iff; intros row; rewrite elem_of_cons; tauto.
    + apply Hrest.
    + apply Hrest.
    + apply Hrest.
    + apply Hrest.
Qed.

(** The listing of a cache is in the order of the paths. *)
Lemma QMap_entries_sorted (m : gmap string (bool * nat)) :
  Sorted key_le (QMap_entries m).
Proof.
  unfold QMap_entries. apply Sorted_merge_sort.
  intros e1 e2. unfold key_le. apply String.leb_total.
Qed.

Lemma elem_of_QMap_entries (m : gmap string (bool * nat)) k s item :
  (k, (s, item)) ∈ QMap_entries m <-> m !! k = Some (s, item).
Proof.
  unfold QMap_entries. rewrite merge_sort_Permutation.
  apply elem_of_map_to_list.
Qed.

Lemma elem_of_swept_keys (m : gmap string (bool * nat)) k :
  k ∈ (swept (QMap_entries m)).*1 <-> exists item, m !! k = Some (false, item).
Proof.
  rewrite list_elem_of_fmap. split.
  - intros ([k' [s item]] & -> & Hin). simpl.
    apply elem_of_swept in Hin as [-> Hin].
    exists item. by apply elem_of_QMap_entries.
  - intros [item Hk]. exists (k, (false, item)). split; [done|].
    apply elem_of_swept. split; [done|]. by apply elem_of_QMap_entries.
Qed.

Lemma elem_of_swept_items (m : gmap string (bool * nat)) item :
  item ∈ (swept (QMap_entries m)).*2.*2 <-> exists k, m !! k = Some (false, item).
Proof.
  rewrite <- list_fmap_compose, list_elem_of_fmap. split.
  - intros ([k [s item']] & -> & Hin). simpl.
    apply elem_of_swept in Hin as [-> Hin].
    exists k. by apply elem_of_QMap_entries.
  - intros [k Hk]. exists (k, (false, item)). split; [done|].
    apply elem_of_swept. split; [done|]. by apply elem_of_QMap_entries.
Qed.

(** What [clearCache] leaves of the cache. *)
Lemma clearCache_cache st p :
  mCurrentFilesCache (clearCache st).1 !! p =
    match mCurrentFilesCache st !! p with
    | Some (true, item) => Some (true, item)
    | _ => None
    end.
Proof.
  unfold clearCache.
  destruct (clearCache_fold (QMap_entries (mCurrentFilesCache st)) st [])
    as (_ & Hcache & _).
  rewrite Hcache. case_bool_decide as Hin.
  - apply elem_of_swept_keys in Hin as [item ->]. done.
  - destruct (mCurrentFilesCache st !! p) as [[[] item]|] eqn:Hp; try done.
    destruct Hin. apply elem_of_swept_keys. by exists item.
Qed.

(** What [clearCache] leaves on the heap. *)
Lemma clearCache_items_swept st k item :
  mCurrentFilesCache st !! k = Some (false, item) ->
  items (clearCache st).1 !! item = None.
Proof.
  intros Hk. unfold clearCache.
  destruct (clearCache_fold (QMap_entries (mCurrentFilesCache st)) st [])
    as (_ & _ & Hitems & _).
  rewrite Hitems, bool_decide_eq_true_2; [done|].
  apply elem_of_swept_items. by exists k.
Qed.

Lemma clearCache_items_kept st item :
  (forall k, mCurrentFilesCache st !! k <> Some (false, item)) ->
  items (clearCache st).1 !! item = items st !! item.
Proof.
  intros Hk. unfold clearCache.
  destruct (clearCache_fold (QMap_entries (mCurrentFilesCache st)) st [])
    as (_ & _ & Hitems & _).
  rewrite Hitems, bool_decide_eq_false_2; [done|].
  intros [k Hin]%elem_of_swept_items. by apply (Hk k).
Qed.

Lemma clearCache_rows_kept st item fileList :
  (forall k, mCurrentFilesCache st !! k <> Some (false, item)) ->
  item ∈ rows (clearCache st).1 fileList <-> item ∈ rows st fileList.
Proof.
  intros Hk. unfold clearCache.
  destruct (clearCache_fold (QMap_entries (mCurrentFilesCache st)) st [])
    as (_ & _ & _ & Hrows & _).
  rewrite Hrows, list_elem_of_filter. split; [tauto|]. intros Hin.
  split; [|done]. intros [k Hin']%elem_of_swept_items. by apply (Hk k).
Qed.

Lemma clearCache_rows_swept st k item fileList :
  mCurrentFilesCache st !! k = Some (false, item) ->
  item ∉ rows (clearCache st).1 fileList.
Proof.
  intros Hk. unfold clearCache.
  destruct (clearCache_fold (QMap_entries (mCurrentFilesCache st)) st [])
    as (_ & _ & _ & Hrows & _).
  rewrite Hrows, list_elem_of_filter. intros [Hnot _]. apply Hnot.
  apply elem_of_swept_items. by exists k.
Qed.

Lemma clearCache_actions st :
  (clearCache st).2 =
    Remove <$> (swept (QMap_entries (mCurrentFilesCache st))).*1.
Proof.
  unfold clearCache.
  by destruct (clearCache_fold (QMap_entries (mCurrentFilesCache st)) st [])
    as (-> & _).
Qed.

Lemma clearCache_nextItem st : nextItem (clearCache st).1 = nextItem st.
Proof.
  unfold clearCache.
  by destruct (clearCache_fold (QMap_entries (mCurrentFilesCache st)) st [])
    as (_ & _ & _ & _ & -> & _).
Qed.

(** A sweep over a cache without unseen records changes nothing. *)
Lemma clearCache_all_seen st :
  (forall p s item, mCurrentFilesCache st !! p = Some (s, item) -> s = true) ->
  clearCache st = (st, []).
Proof.
  intros Hseen. unfold clearCache.
  assert (Forall (fun it => it.2.1 = true)
            (QMap_entries (mCurrentFilesCache st))) as Hall.
  { apply Forall_forall. intros [k [s item]] Hin%elem_of_QMap_entries.
    simpl. eauto. }
  generalize (@nil Action).
  induction Hall as [|[k [s item]] l Hs _ IH]; intros removed; [done|].
  simpl in Hs. subst s. simpl. apply IH.
Qed.

End sweep.

Section sweep_frame.
Import WorkInProgressWidget.
Implicit Types (st : WorkInProgressWidget.t) (p : string) (item : nat).

Lemma cache_inj_eq st p1 p2 s1 s2 item :
  cache_inj st ->
  mCurrentFilesCache st !! p1 = Some (s1, item) ->
  mCurrentFilesCache st !! p2 = Some (s2, item) ->
  p1 = p2.
Proof.
  unfold cache_inj. rewrite <- list_fmap_compose. intros Hnd H1 H2.
  apply elem_of_map_to_list, list_elem_of_lookup in H1 as [i1 H1].
  apply elem_of_map_to_list, list_elem_of_lookup in H2 as [i2 H2].
  assert (i1 = i2) as ->.
  { eapply NoDup_lookup; [exact Hnd | |];
      rewrite list_lookup_fmap; [rewrite H1 | rewrite H2]; done. }
  congruence.
Qed.

Lemma NoDup_swept_keys (m : gmap string (bool * nat)) :
  NoDup (swept (QMap_entries m)).*1.
Proof.
  assert ((swept (QMap_entries m)).*1 `sublist_of` (QMap_entries m).*1) as Hsub.
  { apply fmap_sublist. unfold swept. apply sublist_filter. }
  eapply sublist_NoDup; [|exact Hsub].
  unfold QMap_entries. rewrite merge_sort_Permutation.
  apply NoDup_fst_map_to_list.
Qed.

(** C10. The sweep erases from the cache exactly the records whose seen bit
    is false, destroys their items (gone from the heap and from the rows of
    the lists) and emits one [Remove] for each; every record whose seen bit
    is true stays in the cache as it was, and its item stays on the heap and
    in the rows unchanged. *)
Theorem C10_sweep_frame st :
  cache_inj st ->
  (forall p item,
     mCurrentFilesCache st !! p = Some (false, item) ->
     mCurrentFilesCache (clearCache st).1 !! p = None /\
     items (clearCache st).1 !! item = None /\
     forall fileList, item ∉ rows (clearCache st).1 fileList) /\
  (forall p item,
     mCurrentFilesCache st !! p = Some (true, item) ->
     mCurrentFilesCache (clearCache st).1 !! p = Some (true, item) /\
     items (clearCache st).1 !! item = items st !! item /\
     forall fileList,
       item ∈ rows (clearCache st).1 fileList <-> item ∈ rows st fileList) /\
  (forall p,
     mCurrentFilesCache st !! p = None ->
     mCurrentFilesCache (clearCache st).1 !! p = None) /\
  (forall a,
     a ∈ (clearCache st).2 <->
     exists p item,
       a = Remove p /\ mCurrentFilesCache st !! p = Some (false, item)) /\
  NoDup (clearCache st).2.
Proof.
  intros Hinj. split_and!.
  - intros p item Hp. split_and!.
    + by rewrite clearCache_cache, Hp.
    + by eapply clearCache_items_swept.
    + intros fileList. by eapply clearCache_rows_swept.
  - intros p item Hp.
    assert (forall k, mCurrentFilesCache st !! k <> Some (false, item)) as Hk.
    { intros k Hk. pose proof (cache_inj_eq _ _ _ _ _ _ Hinj Hp Hk) as ->.
      congruence. }
    split_and!.
    + by rewrite clearCache_cache, Hp.
    + by apply clearCache_items_kept.
    + intros fileList. by apply clearCache_rows_kept.
  - intros p Hp. by rewrite clearCache_cache, Hp.
  - intros a. rewrite clearCache_actions, list_elem_of_fmap. split.
    + intros (p & -> & [item Hp]%elem_of_swept_keys). by exists p, item.
    + intros (p & item & -> & Hp). exists p. split; [done|].
      apply elem_of_swept_keys. by exists item.
  - rewrite clearCache_actions. apply NoDup_fmap_2; [|apply NoDup_swept_keys].
    by intros ?? [= ->].
Qed.

End sweep_frame.

(** ** The loop over the new set *)

Section insertion.
Import RevisionFile WorkInProgressWidget.
Implicit Types (files : RevisionFile.t) (st : WorkInProgressWidget.t)
  (fileList : QListWidget) (p : string) (ps : list string) (ns : list nat).

Lemma visited_nil st : visited [] st st [].
Proof.
  split; try done.
  - intros p s item ->. by rewrite orb_false_r.
  - by intros p _ ?%elem_of_nil.
  - by intros p _ ?%elem_of_nil.
  - constructor.
Qed.

Lemma rows_newItem fileList it st item l :
  (item < nextItem st)%nat ->
  item ∈ rows (newItem fileList it st) l <-> item ∈ rows st l.
Proof.
  intros Hlt. destruct l, fileList; simpl; try done.
  all: rewrite elem_of_app, list_elem_of_singleton; split; [|by left].
  all: intros [?| ->]; [done | lia].
Qed.

(** A path that was not cached: the loop goes on from the widget with the
    new item and the new record. *)
Lemma visited_cons_new p ps st it fileList st' a acts :
  mCurrentFilesCache st !! p = None ->
  is_Insert a = true -> action_path a = p ->
  visited ps
    (set_cache (<[p := (true, nextItem st)]> (mCurrentFilesCache st))
       (newItem fileList it st)) st' acts ->
  visited (p :: ps) st st' (a :: acts).
Proof.
  intros Hp Ha Hpath [Hknown Hnew Hother Hnext Hitems Hrows Hacts Hins Honce].
  simpl in *. split.
  - intros q s item Hq.
    assert (q <> p) as Hne by congruence.
    rewrite (Hknown q s item) by (by rewrite lookup_insert_ne).
    do 3 f_equal. apply bool_decide_ext. rewrite elem_of_cons. tauto.
  - intros q Hq [-> | Hin]%elem_of_cons.
    + exists (nextItem st). split; [|lia].
      by rewrite (Hknown p true (nextItem st)) by apply lookup_insert_eq.
    + destruct (decide (q = p)) as [-> | Hne].
      * exists (nextItem st). split; [|lia].
        by rewrite (Hknown p true (nextItem st)) by apply lookup_insert_eq.
      * destruct (Hnew q) as (item & ? & ?); [by rewrite lookup_insert_ne|done|].
        exists item. split; [done | lia].
  - intros q Hq Hin. apply not_elem_of_cons in Hin as [Hne Hin].
    apply Hother; [by rewrite lookup_insert_ne | done].
  - lia.
  - intros item Hlt. rewrite Hitems by lia.
    apply lookup_insert_ne. lia.
  - intros item l Hlt. rewrite Hrows by lia. by apply rows_newItem.
  - constructor.
    + rewrite Hpath. split_and!; [done..|left].
    + eapply Forall_impl; [exact Hacts|]. intros b (? & Hb & ?). split_and!.
      * done.
      * apply lookup_insert_None in Hb. tauto.
      * by right.
  - intros q Hq [-> | Hin]%elem_of_cons.
    + exists a. split; [left | done].
    + destruct (decide (q = p)) as [-> | Hne].
      * exists a. split; [left | done].
      * destruct (Hins q) as (b & ? & ?); [by rewrite lookup_insert_ne|done|].
        exists b. split; [by right | done].
  - rewrite fmap_cons. apply NoDup_cons. split; [|done].
    intros (b & Hb & Hin)%list_elem_of_fmap.
    rewrite Forall_forall in Hacts. destruct (Hacts b Hin) as (_ & Hnone & _).
    rewrite <- Hb, Hpath, lookup_insert_eq in Hnone. done.
Qed.

(** A path that was cached: the loop goes on with its record marked. *)
Lemma visited_cons_known p ps st s0 item0 st' acts :
  mCurrentFilesCache st !! p = Some (s0, item0) ->
  visited ps
    (set_cache (<[p := (true, item0)]> (mCurrentFilesCache st)) st) st' acts ->
  visited (p :: ps) st st' acts.
Proof.
  intros Hp [Hknown Hnew Hother Hnext Hitems Hrows Hacts Hins Honce].
  simpl in *. split.
  - intros q s item Hq. destruct (decide (q = p)) as [-> | Hne].
    + rewrite Hp in Hq. injection Hq as <- <-.
      rewrite (Hknown p true item0) by apply lookup_insert_eq.
      rewrite (bool_decide_eq_true_2 (p ∈ p :: ps)) by left.
      by rewrite orb_true_r.
    + rewrite (Hknown q s item) by (by rewrite lookup_insert_ne).
      do 3 f_equal. apply bool_decide_ext. rewrite elem_of_cons. tauto.
  - intros q Hq Hin. assert (q <> p) as Hne by congruence.
    apply elem_of_cons in Hin as [? | Hin]; [done|].
    apply Hnew; [by rewrite lookup_insert_ne | done].
  - intros q Hq Hin. apply not_elem_of_cons in Hin as [Hne Hin].
    apply Hother; [by rewrite lookup_insert_ne | done].
  - done.
  - done.
  - done.
  - eapply Forall_impl; [exact Hacts|]. intros b (? & Hb & ?). split_and!.
    + done.
    + apply lookup_insert_None in Hb. tauto.
    + by right.
  - intros q Hq Hin. assert (q <> p) as Hne by congruence.
    apply elem_of_cons in Hin as [? | Hin]; [done|].
    apply Hins; [by rewrite lookup_insert_ne | done].
  - done.
Qed.

(** On an aligned set the loop of [insertFiles] never fails, whatever the
    widget, and ends in a widget related to the first one by [visited]. *)
Lemma insertFiles_from_visited files fileList :
  aligned files ->
  forall ns ps st,
    Forall2 (fun n p => mFiles files !! n = Some p) ns ps ->
    exists st' acts,
      insertFiles_from files fileList (Z.of_nat <$> ns) st = Ok (st', acts) /\
      visited ps st st' acts.
Proof.
  intros Hal ns ps st Hns. revert st.
  induction Hns as [|n p ns ps Hn _ IH]; intros st.
  - exists st, []. split; [done | apply visited_nil].
  - pose proof (QVector_at_of_nat _ _ _ Hn) as Hfile.
    destruct (getStatus_aligned files (Z.of_nat n) Hal) as (status & Hst & _).
    { by apply getFile_in_range with p. }
    rewrite fmap_cons. simpl insertFiles_from.
    destruct (mCurrentFilesCache st !! p) as [[s0 item0]|] eqn:Hp.
    + rewrite (insertFile_known _ _ _ _ _ _ _ Hfile Hp). simpl.
      destruct (IH (set_cache (<[p := (true, item0)]> (mCurrentFilesCache st)) st))
        as (st' & acts & -> & Hvis).
      exists st', acts. split; [done|]. by eapply visited_cons_known.
    + destruct (insertFile_new _ fileList _ _ _ _ Hfile Hst Hp)
        as (it & -> & _). simpl.
      destruct (IH (set_cache (<[p := (true, nextItem st)]> (mCurrentFilesCache st))
                      (newItem fileList it st)))
        as (st' & acts & -> & Hvis).
      eexists st', (_ :: acts). split; [done|].
      by eapply visited_cons_new.
Qed.

Lemma mFiles_indices files :
  Forall2 (fun n p => mFiles files !! n = Some p)
    (seq 0 (Z.to_nat (count files))) (mFiles files).
Proof.
  unfold count. rewrite Nat2Z.id. apply Forall2_lookup. intros i.
  destruct (mFiles files !! i) as [p|] eqn:Hi.
  - pose proof (lookup_lt_Some _ _ _ Hi).
    rewrite lookup_seq_lt by done. by constructor.
  - apply lookup_ge_None in Hi.
    rewrite lookup_seq_ge by done. constructor.
Qed.

Lemma insertFiles_visited files fileList st :
  aligned files ->
  exists st' acts,
    insertFiles files fileList st = Ok (st', acts) /\
    visited (mFiles files) st st' acts.
Proof.
  intros Hal. unfold insertFiles.
  apply insertFiles_from_visited; [done | apply mFiles_indices].
Qed.

End insertion.

(** ** A whole pass *)

Section pass.
Import RevisionFile WorkInProgressWidget.
Implicit Types (files : RevisionFile.t) (st : WorkInProgressWidget.t)
  (fileList : QListWidget) (p : string) (ps : list string) (item : nat).

Lemma prepareCache_cache st p :
  mCurrentFilesCache (prepareCache st) !! p =
    (fun file : bool * nat => (false, file.2)) <$> mCurrentFilesCache st !! p.
Proof. unfold prepareCache. simpl. apply lookup_fmap. Qed.

Lemma set_cache_set_cache c1 c2 st :
  set_cache c1 (set_cache c2 st) = set_cache c1 st.
Proof. done. Qed.

Lemma set_cache_id st : set_cache (mCurrentFilesCache st) st = st.
Proof. by destruct st. Qed.

(** The invariant of the cache, by records. *)
Lemma sound_alt st :
  sound st <->
  (forall p1 p2 s1 s2 item,
     mCurrentFilesCache st !! p1 = Some (s1, item) ->
     mCurrentFilesCache st !! p2 = Some (s2, item) -> p1 = p2) /\
  (forall p s item,
     mCurrentFilesCache st !! p = Some (s, item) -> (item < nextItem st)%nat).
Proof.
  unfold sound. split; intros [Hinj Hbelow]; split.
  - intros p1 p2 s1 s2 item. by apply cache_inj_eq.
  - intros p s item Hp. apply (Hbelow p (s, item) Hp).
  - unfold cache_inj. rewrite <- list_fmap_compose.
    apply NoDup_fmap_2_strong; [|apply NoDup_map_to_list].
    intros [p1 [s1 i1]] [p2 [s2 i2]] H1%elem_of_map_to_list
      H2%elem_of_map_to_list Heq. simpl in Heq. subst i2.
    pose proof (Hinj _ _ _ _ _ H1 H2) as ->. congruence.
  - intros p [s item] Hp. simpl. by eapply Hbelow.
Qed.

Lemma sound_new : sound WorkInProgressWidget.new.
Proof. apply sound_alt. split; intros *; simpl; by rewrite lookup_empty. Qed.

Lemma sound_prepareCache st : sound st -> sound (prepareCache st).
Proof.
  rewrite !sound_alt. intros [Hinj Hbelow]. split.
  - intros p1 p2 s1 s2 item. rewrite !prepareCache_cache.
    destruct (mCurrentFilesCache st !! p1) as [[? ?]|] eqn:H1; [|done].
    destruct (mCurrentFilesCache st !! p2) as [[? ?]|] eqn:H2; [|done].
    simpl. intros [= <- <-] [= <- <-]. by eapply Hinj.
  - intros p s item. rewrite prepareCache_cache.
    destruct (mCurrentFilesCache st !! p) as [[? ?]|] eqn:H1; [|done].
    simpl. intros [= <- <-]. by eapply Hbelow.
Qed.

Lemma sound_clearCache st : sound st -> sound (clearCache st).1.
Proof.
  rewrite !sound_alt. intros [Hinj Hbelow].
  assert (forall p s item,
            mCurrentFilesCache (clearCache st).1 !! p = Some (s, item) ->
            mCurrentFilesCache st !! p = Some (s, item)) as Hsub.
  { intros p s item. rewrite clearCache_cache.
    destruct (mCurrentFilesCache st !! p) as [[[] ?]|]; naive_solver. }
  split.
  - intros p1 p2 s1 s2 item H1%Hsub H2%Hsub. by eapply Hinj.
  - intros p s item H1%Hsub. rewrite clearCache_nextItem. by eapply Hbelow.
Qed.

Lemma sound_insert_known st p s item :
  mCurrentFilesCache st !! p = Some (s, item) ->
  sound st ->
  sound (set_cache (<[p := (true, item)]> (mCurrentFilesCache st)) st).
Proof.
  rewrite !sound_alt. intros Hp [Hinj Hbelow].
  assert (forall q s' item',
            <[p := (true, item)]> (mCurrentFilesCache st) !! q = Some (s', item') ->
            exists s'', mCurrentFilesCache st !! q = Some (s'', item')) as Hsub.
  { intros q s' item'. destruct (decide (p = q)) as [<- | Hne].
    - rewrite lookup_insert_eq. intros [= <- <-]. by exists s.
    - rewrite lookup_insert_ne by done. by exists s'. }
  split; simpl.
  - intros p1 p2 s1 s2 item' [? H1]%Hsub [? H2]%Hsub. by eapply Hinj.
  - intros q s' item' [? H1]%Hsub. by eapply Hbelow.
Qed.

Lemma sound_insert_new st p it fileList :
  sound st ->
  sound (set_cache (<[p := (true, nextItem st)]> (mCurrentFilesCache st))
           (newItem fileList it st)).
Proof.
  rewrite !sound_alt. intros [Hinj Hbelow].
  assert (forall q s' item',
            <[p := (true, nextItem st)]> (mCurrentFilesCache st) !! q
              = Some (s', item') ->
            (q = p /\ item' = nextItem st) \/
            (q <> p /\ mCurrentFilesCache st !! q = Some (s', item'))) as Hsub.
  { intros q s' item'. destruct (decide (p = q)) as [<- | Hne].
    - rewrite lookup_insert_eq. intros [= <- <-]. by left.
    - rewrite lookup_insert_ne by done. right. split; [congruence | done]. }
  split; simpl.
  - intros p1 p2 s1 s2 item' [[-> ->] | [? H1]]%Hsub [[-> Heq] | [? H2]]%Hsub.
    + done.
    + apply Hbelow in H2. lia.
    + apply Hbelow in H1. lia.
    + by eapply Hinj.
  - intros q s' item' [[-> ->] | [? H1]]%Hsub; [lia|].
    apply Hbelow in H1. lia.
Qed.

Lemma sound_insertFiles_from files fileList :
  aligned files ->
  forall ns ps st st' acts,
    Forall2 (fun n p => mFiles files !! n = Some p) ns ps ->
    insertFiles_from files fileList (Z.of_nat <$> ns) st = Ok (st', acts) ->
    sound st -> sound st'.
Proof.
  intros Hal ns ps st st' acts Hns. revert st st' acts.
  induction Hns as [|n p ns ps Hn _ IH]; intros st st' acts.
  - simpl. by intros [= <- <-].
  - pose proof (QVector_at_of_nat _ _ _ Hn) as Hfile.
    destruct (getStatus_aligned files (Z.of_nat n) Hal) as (status & Hst & _).
    { by apply getFile_in_range with p. }
    rewrite fmap_cons. simpl insertFiles_from.
    destruct (mCurrentFilesCache st !! p) as [[s0 item0]|] eqn:Hp.
    + rewrite (insertFile_known _ _ _ _ _ _ _ Hfile Hp). simpl.
      destruct (insertFiles_from _ _ _ _) as [[st2 a2]|] eqn:Hrest; [|done].
      simpl. intros [= <- <-] Hsound.
      eapply IH; [exact Hrest|]. by eapply sound_insert_known.
    + destruct (insertFile_new _ fileList _ _ _ _ Hfile Hst Hp)
        as (it & -> & _). simpl.
      destruct (insertFiles_from _ _ _ _) as [[st2 a2]|] eqn:Hrest; [|done].
      simpl. intros [= <- <-] Hsound.
      eapply IH; [exact Hrest|]. by apply sound_insert_new.
Qed.

(** A pass on an aligned set never fails: it is the marking, the loop and
    the sweep, one after the other. *)
Lemma configure_steps files st :
  aligned files ->
  exists st1 inserted,
    insertFiles files unstagedFilesList (prepareCache st) = Ok (st1, inserted) /\
    visited (mFiles files) (prepareCache st) st1 inserted /\
    configure files st =
      Ok ((clearCache st1).1, inserted ++ (clearCache st1).2).
Proof.
  intros Hal.
  destruct (insertFiles_visited files unstagedFilesList (prepareCache st) Hal)
    as (st1 & inserted & Hins & Hvis).
  exists st1, inserted. split_and!; [done..|].
  unfold configure. rewrite Hins. simpl. by destruct (clearCache st1).
Qed.

(** A pass keeps the invariant of the cache. *)
Lemma sound_configure files st st' acts :
  aligned files ->
  configure files st = Ok (st', acts) -> sound st -> sound st'.
Proof.
  intros Hal Hconf Hsound.
  destruct (configure_steps files st Hal) as (st1 & inserted & Hins & _ & Heq).
  rewrite Heq in Hconf. injection Hconf as <- <-.
  apply sound_clearCache.
  eapply sound_insertFiles_from;
    [exact Hal | apply mFiles_indices | exact Hins | by apply sound_prepareCache].
Qed.

End pass.

Section reconciliation.
Import RevisionFile WorkInProgressWidget.
Implicit Types (files : RevisionFile.t) (st : WorkInProgressWidget.t)
  (fileList : QListWidget) (p : string) (ps : list string) (item : nat).

Lemma marked_lookup ps : forall (c : gmap string (bool * nat)) p,
  marked ps c !! p =
    (fun file : bool * nat => (file.1 || bool_decide (p ∈ ps), file.2))
      <$> c !! p.
Proof.
  induction ps as [|q ps IH]; intros c p.
  - unfold marked. simpl. destruct (c !! p) as [[s item]|]; simpl; [|done].
    by rewrite orb_false_r.
  - unfold marked in *. simpl. rewrite IH.
    destruct (decide (q = p)) as [-> | Hne].
    + rewrite lookup_alter_eq.
      destruct (c !! p) as [[s item]|]; simpl; [|done].
      rewrite (bool_decide_eq_true_2 (p ∈ p :: ps)) by left.
      by rewrite orb_true_r.
    + rewrite lookup_alter_ne by done.
      destruct (c !! p) as [[s item]|]; simpl; [|done].
      do 3 f_equal. apply bool_decide_ext. rewrite elem_of_cons.
      split; [tauto | intros [? | ?]; [congruence | done]].
Qed.

(** When every path of the set is cached the loop only marks records. *)
Lemma insertFiles_from_all_known files fileList :
  forall (ns : list nat) ps st,
    Forall2 (fun n p => mFiles files !! n = Some p) ns ps ->
    Forall (fun p => is_Some (mCurrentFilesCache st !! p)) ps ->
    insertFiles_from files fileList (Z.of_nat <$> ns) st =
      Ok (set_cache (marked ps (mCurrentFilesCache st)) st, []).
Proof.
  intros ns ps st Hns. revert st.
  induction Hns as [|n p ns ps Hn _ IH]; intros st Hknown.
  - simpl. by rewrite set_cache_id.
  - apply Forall_cons in Hknown as [[[s item] Hp] Hknown].
    pose proof (QVector_at_of_nat _ _ _ Hn) as Hfile.
    change (getFile files (Z.of_nat n) = Ok p) in Hfile.
    rewrite fmap_cons. simpl insertFiles_from.
    unfold insertFile. rewrite Hfile. simpl. rewrite Hp.
    rewrite bool_decide_eq_true_2 by done. simpl.
    rewrite IH.
    + done.
    + eapply Forall_impl; [exact Hknown|]. intros q Hq. simpl.
      by apply lookup_alter_is_Some.
Qed.

(** The cache after a pass: the paths of the set, all seen; a path that was
    cached keeps its item. *)
Lemma configure_cache files st st' acts :
  aligned files ->
  configure files st = Ok (st', acts) ->
  (forall p s item,
     mCurrentFilesCache st' !! p = Some (s, item) ->
     s = true /\ p ∈ mFiles files) /\
  (forall p, p ∈ mFiles files -> is_Some (mCurrentFilesCache st' !! p)) /\
  (forall p s item,
     mCurrentFilesCache st !! p = Some (s, item) -> p ∈ mFiles files ->
     mCurrentFilesCache st' !! p = Some (true, item)).
Proof.
  intros Hal Hconf.
  destruct (configure_steps files st Hal) as (st1 & inserted & _ & Hvis & Heq).
  rewrite Heq in Hconf. injection Hconf as <- <-.
  destruct Hvis as [Hknown Hnew Hother _ _ _ _ _ _].
  assert (forall p s item,
            mCurrentFilesCache st1 !! p = Some (s, item) ->
            s = bool_decide (p ∈ mFiles files)) as Hseen.
  { intros p s item Hp.
    destruct (mCurrentFilesCache (prepareCache st) !! p) as [[s0 i0]|] eqn:H0.
    - pose proof H0 as H0'. rewrite prepareCache_cache in H0'.
      destruct (mCurrentFilesCache st !! p) as [[? ?]|]; [|done].
      simpl in H0'. injection H0' as <- <-.
      rewrite (Hknown _ _ _ H0) in Hp. by injection Hp as <- <-.
    - destruct (decide (p ∈ mFiles files)) as [Hin | Hin].
      + destruct (Hnew p H0 Hin) as (i & Hi & _). rewrite Hi in Hp.
        injection Hp as <- <-. by rewrite bool_decide_eq_true_2.
      + rewrite (Hother p H0 Hin) in Hp. done. }
  split_and!.
  - intros p s item. rewrite clearCache_cache.
    destruct (mCurrentFilesCache st1 !! p) as [[[] i]|] eqn:Hp; [|done..].
    intros [= <- <-]. split; [done|].
    apply Hseen in Hp. symmetry in Hp. by apply bool_decide_eq_true_1 in Hp.
  - intros p Hin. rewrite clearCache_cache.
    destruct (mCurrentFilesCache (prepareCache st) !! p) as [[s0 i0]|] eqn:H0.
    + rewrite (Hknown _ _ _ H0), bool_decide_eq_true_2 by done.
      by rewrite orb_true_r.
    + destruct (Hnew p H0 Hin) as (i & -> & _). done.
  - intros p s item Hp Hin. rewrite clearCache_cache.
    rewrite (Hknown p false item).
    + rewrite bool_decide_eq_true_2 by done. done.
    + by rewrite prepareCache_cache, Hp.
Qed.

(** C4. On any widget, a pass with a set followed by a pass with the same
    set: the second pass emits no action at all (no insert, no move, no
    remove) and leaves the widget as the first pass left it, every record of
    the cache being marked seen. *)
Theorem C4_idempotent files st :
  aligned files ->
  exists st1 acts1,
    configure files st = Ok (st1, acts1) /\
    configure files st1 = Ok (st1, []) /\
    (forall p s item,
       mCurrentFilesCache st1 !! p = Some (s, item) -> s = true).
Proof.
  intros Hal.
  destruct (configure_steps files st Hal) as (st1 & inserted & _ & _ & Heq).
  eexists _, _. split; [exact Heq|].
  destruct (configure_cache _ _ _ _ Hal Heq) as (Hseen & Hall & _).
  set (S := (clearCache st1).1) in *.
  split; [|intros p s item Hp; by apply Hseen in Hp as [-> _]].
  unfold configure, insertFiles.
  rewrite (insertFiles_from_all_known files unstagedFilesList _ (mFiles files)).
  - simpl. unfold prepareCache. rewrite set_cache_set_cache.
    assert (marked (mFiles files)
              ((fun file : bool * nat => (false, file.2))
                 <$> mCurrentFilesCache S)
            = mCurrentFilesCache S) as ->.
    { apply map_eq. intros p. rewrite marked_lookup, lookup_fmap.
      destruct (mCurrentFilesCache S !! p) as [[s item]|] eqn:Hp; [|done].
      simpl. destruct (Hseen _ _ _ Hp) as [-> Hin].
      by rewrite bool_decide_eq_true_2. }
    rewrite set_cache_id, clearCache_all_seen; [done|].
    intros p s item Hp. by apply Hseen in Hp as [-> _].
  - apply mFiles_indices.
  - apply Forall_forall. intros p Hin. rewrite prepareCache_cache.
    apply fmap_is_Some. by apply Hall.
Qed.


End reconciliation.

Section sparsity.
Import RevisionFile WorkInProgressWidget.
Implicit Types (files : RevisionFile.t) (st : WorkInProgressWidget.t)
  (a b c d p : string) (item : nat).

Lemma NoDup_singleton_eq {A} (l : list A) (x : A) :
  NoDup l -> (forall y, y ∈ l <-> y = x) -> l = [x].
Proof.
  intros Hnd Hl. destruct l as [|y l].
  - pose proof (proj2 (Hl x) eq_refl) as Hx. by apply elem_of_nil in Hx.
  - assert (y = x) as -> by (apply Hl; left).
    apply NoDup_cons in Hnd as [Hx _].
    destruct l as [|z l]; [done|].
    assert (z = x) as -> by (apply Hl; right; left).
    destruct Hx. left.
Qed.

(** C5. A pass removes every cached record whose path is not in the new set
    (one [Remove] each, the record erased).  When the cache holds the paths
    a, b, c and the set holds a, c, d, the pass emits exactly two actions,
    the [Insert] of d and the [Remove] of b, none for a or c; after it the
    cache holds a, c, d, the records of a and c with the items they had. *)
Theorem C5_sparse files st :
  aligned files ->
  (exists st' acts,
     configure files st = Ok (st', acts) /\
     forall p,
       is_Some (mCurrentFilesCache st !! p) -> p ∉ mFiles files ->
       Remove p ∈ acts /\ mCurrentFilesCache st' !! p = None) /\
  (forall a b c d,
     (forall p, p ∈ mFiles files <-> p ∈ [a; c; d]) ->
     dom (mCurrentFilesCache st) = {[a; b; c]} ->
     b ∉ [a; c; d] -> d ∉ [a; b; c] ->
     exists st' bucket isConflict color,
       configure files st =
         Ok (st', [Insert d bucket isConflict color; Remove b]) /\
       mCurrentFilesCache st' !! b = None /\
       dom (mCurrentFilesCache st') = {[a; c; d]} /\
       (forall p s item,
          p = a \/ p = c -> mCurrentFilesCache st !! p = Some (s, item) ->
          mCurrentFilesCache st' !! p = Some (true, item))).
Proof.
  intros Hal.
  destruct (configure_steps files st Hal) as (st1 & inserted & Hins & Hvis & Heq).
  pose proof (configure_cache _ _ _ _ Hal Heq) as (Hseen & Hall & Hkeep).
  assert (forall p,
            is_Some (mCurrentFilesCache st !! p) -> p ∉ mFiles files ->
            exists item, mCurrentFilesCache st1 !! p = Some (false, item))
    as Hunseen.
  { intros p [[s item] Hp] Hnot. exists item.
    rewrite (visited_known _ _ _ _ Hvis p false item).
    - by rewrite bool_decide_eq_false_2.
    - by rewrite prepareCache_cache, Hp. }
  split.
  - eexists _, _. split; [exact Heq|]. intros p Hp Hnot.
    destruct (Hunseen p Hp Hnot) as [item Hitem]. split.
    + apply elem_of_app. right. rewrite clearCache_actions.
      apply list_elem_of_fmap_2, elem_of_swept_keys. by exists item.
    + by rewrite clearCache_cache, Hitem.
  - intros a b c d Hfiles Hdom Hb Hd.
    assert (forall p, is_Some (mCurrentFilesCache st !! p) <-> p ∈ [a; b; c])
      as Hcached.
    { intros p. rewrite <- elem_of_dom, Hdom. set_solver. }
    assert (forall p, mCurrentFilesCache (prepareCache st) !! p = None <->
                      p ∉ [a; b; c]) as Hfresh.
    { intros p. rewrite <- Hcached, prepareCache_cache, fmap_None.
      by rewrite eq_None_not_Some. }
    (* the removals: b and nothing else *)
    assert ((clearCache st1).2 = [Remove b]) as Hremoved.
    { rewrite clearCache_actions.
      rewrite (NoDup_singleton_eq _ b); [done | apply NoDup_swept_keys |].
      intros k. rewrite elem_of_swept_keys. split.
      - intros [item Hk].
        destruct (mCurrentFilesCache (prepareCache st) !! k)
          as [[s0 i0]|] eqn:H0.
        + rewrite (visited_known _ _ _ _ Hvis _ _ _ H0) in Hk.
          injection Hk as Hs _. apply orb_false_iff in Hs as [_ Hs].
          apply bool_decide_eq_false in Hs. rewrite Hfiles in Hs.
          assert (k ∈ [a; b; c]) as Hk.
          { destruct (decide (k ∈ [a; b; c])) as [|Hk]; [done|].
            apply Hfresh in Hk. congruence. }
          set_solver.
        + destruct (decide (k ∈ mFiles files)) as [Hin | Hin].
          * destruct (visited_new _ _ _ _ Hvis k H0 Hin) as (i & Hi & _).
            congruence.
          * rewrite (visited_other _ _ _ _ Hvis k H0 Hin) in Hk. done.
      - intros ->. apply Hunseen; [|by rewrite Hfiles].
        apply Hcached. set_solver. }
    (* the insertions: d and nothing else *)
    assert (action_path <$> inserted = [d]) as Hpaths.
    { apply NoDup_singleton_eq; [apply (visited_once _ _ _ _ Hvis)|].
      intros k. split.
      - intros (e & -> & He)%list_elem_of_fmap.
        pose proof (visited_actions _ _ _ _ Hvis) as Hacts.
        rewrite Forall_forall in Hacts.
        destruct (Hacts e He) as (_ & Hnone%Hfresh & Hin%Hfiles).
        set_solver.
      - intros ->.
        destruct (visited_inserted _ _ _ _ Hvis d) as (e & He & <-).
        + by apply Hfresh.
        + apply Hfiles. set_solver.
        + by apply list_elem_of_fmap_2. }
    assert (exists bucket isConflict color,
              inserted = [Insert d bucket isConflict color]) as Hinserted.
    { destruct inserted as [|e [|e' inserted]]; try discriminate.
      injection Hpaths as Hpath.
      pose proof (visited_actions _ _ _ _ Hvis) as Hacts.
      apply Forall_cons in Hacts as [(He & _) _].
      destruct e; try discriminate. simpl in Hpath. subst. by eexists _, _, _. }
    destruct Hinserted as (bucket & isConflict & color & ->).
    eexists _, bucket, isConflict, color.
    split; [by rewrite Heq, Hremoved|]. split_and!.
    + rewrite clearCache_cache.
      destruct (Hunseen b) as [item ->]; [apply Hcached; set_solver | |done].
      by rewrite Hfiles.
    + apply set_eq. intros p. rewrite elem_of_dom. split.
      * intros [[s item] Hp]. apply Hseen in Hp as [_ Hp].
        rewrite Hfiles in Hp. set_solver.
      * intros Hp. apply Hall. rewrite Hfiles. set_solver.
    + intros p s item Hp Hst. eapply Hkeep; [exact Hst|].
      rewrite Hfiles. set_solver.
Qed.

End sparsity.

(** ** Committing *)

Section committing.
Import RevisionFile WorkInProgressWidget.
Variable checkMsg : string -> string -> bool * string.
Variable git_commitFiles : list string -> RevisionFile.t -> string -> bool.
Variable wipFiles : RevisionFile.t.
Implicit Types (st : WorkInProgressWidget.t).

Lemma hasConflicts_conflicted st : hasConflicts st = true <-> conflicted st.
Proof.
  unfold hasConflicts, conflicted. rewrite existsb_exists. split.
  - intros ([p [seen item]] & Hin & Hit). simpl in Hit.
    apply list_elem_of_In, elem_of_QMap_entries in Hin.
    destruct (items st !! item) as [it|] eqn:Hitem; [|done].
    by exists p, seen, item, it.
  - intros (p & seen & item & it & Hp & Hitem & Hconf).
    exists (p, (seen, item)). split.
    + by apply list_elem_of_In, elem_of_QMap_entries.
    + simpl. by rewrite Hitem.
Qed.



End committing.

(** ** The properties at the sample sets and widgets *)

Section samples.
Import RevisionFile WorkInProgressWidget Samples.




Lemma C2_bucket_classification_witness :
  exists st' it color,
    insertFile files_conflict unstagedFilesList 0 WorkInProgressWidget.new =
      Ok (st', [Insert "x" unstagedFilesList true color]) /\
    items st' !! 0%nat = Some it /\
    QListWidgetItem.U_ListRole it = Some unstagedFilesList /\
    QListWidgetItem.U_IsConflict it = true.
Proof.
  destruct (C2_bucket_classification files_conflict 0 WorkInProgressWidget.new
              "x" (flags_of [CONFLICT; IN_INDEX]))
    as [(st' & it & color & Hins & _ & Hit & Hrole & Hconf) _].
  - reflexivity.
  - reflexivity.
  - reflexivity.
  - exists st', it, color. split; [exact Hins|]. split; [exact Hit|].
    split; [exact Hrole | exact Hconf].
Defined.

Lemma C3_color_priority_witness :
  getColorForFile files_conflict_deleted 0 = Ok getBlue /\
  getColorForFile files_conflict_deleted 0 <> Ok getRed.
Proof.
  destruct (C3_color_priority files_conflict_deleted 0
              (flags_of [CONFLICT; DELETED])) as [_ Hboth].
  - vm_compute. split; [discriminate | reflexivity].
  - reflexivity.
  - apply Hboth; reflexivity.
Defined.

Lemma C4_idempotent_witness :
  exists st1 acts1,
    configure files_abc WorkInProgressWidget.new = Ok (st1, acts1) /\
    configure files_abc st1 = Ok (st1, []) /\
    (forall p s item,
       mCurrentFilesCache st1 !! p = Some (s, item) -> s = true).
Proof.
  apply (C4_idempotent files_abc WorkInProgressWidget.new). reflexivity.
Defined.

Lemma C5_sparse_witness :
  exists st' bucket isConflict color,
    configure files_acd st_abc =
      Ok (st', [Insert "d" bucket isConflict color; Remove "b"]) /\
    mCurrentFilesCache st' !! "b"%string = None /\
    dom (mCurrentFilesCache st') = {["a"; "c"; "d"]}%string.
Proof.
  destruct (C5_sparse files_acd st_abc) as [_ Hscenario]; [reflexivity|].
  destruct (Hscenario "a" "b" "c" "d")%string
    as (st' & bucket & isConflict & color & Hconf & Hb & Hdom & _).
  - intros p. reflexivity.
  - vm_compute. reflexivity.
  - by_decide.
  - by_decide.
  - exists st', bucket, isConflict, color.
    split; [exact Hconf|]. split; [exact Hb | exact Hdom].
Defined.


Lemma C10_sweep_frame_witness :
  mCurrentFilesCache (clearCache st_before_sweep).1 !! "b"%string = None /\
  items (clearCache st_before_sweep).1 !! 1%nat = None /\
  mCurrentFilesCache (clearCache st_before_sweep).1 !! "a"%string
    = Some (true, 0%nat) /\
  items (clearCache st_before_sweep).1 !! 0%nat = items st_before_sweep !! 0%nat /\
  (forall a,
     a ∈ (clearCache st_before_sweep).2 <->
     exists p item,
       a = Remove p /\
       mCurrentFilesCache st_before_sweep !! p = Some (false, item)).
Proof.
  destruct (C10_sweep_frame st_before_sweep) as (Hunseen & Hseen & _ & Hacts & _).
  { by_decide. }
  destruct (Hunseen "b"%string 1%nat) as (Hb & Hitem & _);
    [vm_compute; reflexivity|].
  destruct (Hseen "a"%string 0%nat) as (Ha & Hkept & _);
    [vm_compute; reflexivity|].
  split; [exact Hb|]. split; [exact Hitem|]. split; [exact Ha|].
  split; [exact Hkept | exact Hacts].
Defined.

End samples.

(** ** The cache, the heap and the rows *)

Section coherence.
Import RevisionFile WorkInProgressWidget WorkInProgressSlots.
Implicit Types (files : RevisionFile.t) (st : WorkInProgressWidget.t)
  (fileList : QListWidget) (p : string) (item : nat).

Lemma elem_of_cached_items st item :
  item ∈ cached_items st <->
  exists p s, mCurrentFilesCache st !! p = Some (s, item).
Proof.
  unfold cached_items. rewrite <- list_fmap_compose, list_elem_of_fmap. split.
  - intros ([p [s i]] & -> & Hin%elem_of_map_to_list). by exists p, s.
  - intros (p & s & Hp). exists (p, (s, item)). split; [done|].
    by apply elem_of_map_to_list.
Qed.

(** The agreement of cache, heap and rows, record by record. *)
Lemma coherent_alt st :
  coherent st <->
  (forall p1 p2 s1 s2 item,
     mCurrentFilesCache st !! p1 = Some (s1, item) ->
     mCurrentFilesCache st !! p2 = Some (s2, item) -> p1 = p2) /\
  (forall item,
     is_Some (items st !! item) <->
     exists p s, mCurrentFilesCache st !! p = Some (s, item)) /\
  NoDup (all_rows st) /\
  (forall item, item ∈ all_rows st <-> is_Some (items st !! item)) /\
  (forall item, is_Some (items st !! item) -> (item < nextItem st)%nat).
Proof.
  unfold coherent.
  assert (cache_inj st <->
          forall p1 p2 s1 s2 item,
            mCurrentFilesCache st !! p1 = Some (s1, item) ->
            mCurrentFilesCache st !! p2 = Some (s2, item) -> p1 = p2) as Hinj.
  { split.
    - intros H p1 p2 s1 s2 item. by apply cache_inj_eq.
    - intros H. unfold cache_inj. rewrite <- list_fmap_compose.
      apply NoDup_fmap_2_strong; [|apply NoDup_map_to_list].
      intros [p1 [s1 i1]] [p2 [s2 i2]] H1%elem_of_map_to_list
        H2%elem_of_map_to_list Heq. simpl in Heq. subst i2.
      pose proof (H _ _ _ _ _ H1 H2) as ->. congruence. }
  change (NoDup (cached_items st)) with (cache_inj st). rewrite Hinj.
  assert (list_to_set (cached_items st) = dom (items st) <->
          forall item,
            is_Some (items st !! item) <->
            exists p s, mCurrentFilesCache st !! p = Some (s, item)) as ->.
  { rewrite set_eq. apply forall_proper. intros item.
    rewrite elem_of_list_to_set, elem_of_dom, elem_of_cached_items. tauto. }
  assert (list_to_set (all_rows st) = dom (items st) <->
          forall item, item ∈ all_rows st <-> is_Some (items st !! item)) as ->.
  { rewrite set_eq. apply forall_proper. intros item.
    by rewrite elem_of_list_to_set, elem_of_dom. }
  assert (map_Forall (fun item _ => (item < nextItem st)%nat) (items st) <->
          forall item, is_Some (items st !! item) -> (item < nextItem st)%nat)
    as ->; [|done].
  unfold map_Forall. split.
  - intros H item [it Hit]. by eapply H.
  - intros H item it Hit. apply H. by eexists.
Qed.

Lemma coherent_sound st : coherent st -> sound st.
Proof.
  intros (Hinj & Hheap & _ & _ & Hbelow)%coherent_alt. apply sound_alt.
  split; [done|]. intros p s item Hp. apply Hbelow, Hheap. by exists p, s.
Qed.

Lemma coherent_new : coherent WorkInProgressWidget.new.
Proof. by_decide. Qed.

Lemma coherent_prepareCache st : coherent st -> coherent (prepareCache st).
Proof.
  rewrite !coherent_alt. intros (Hinj & Hheap & Hnd & Hrows & Hbelow).
  assert (forall p s item,
            mCurrentFilesCache (prepareCache st) !! p = Some (s, item) <->
            s = false /\ exists s', mCurrentFilesCache st !! p = Some (s', item))
    as Hprep.
  { intros p s item. rewrite prepareCache_cache.
    destruct (mCurrentFilesCache st !! p) as [[s' i]|]; simpl; [|naive_solver].
    split; [intros [= <- <-]; eauto | intros (-> & ? & [= <- <-]); done]. }
  split_and!; try done.
  - intros p1 p2 s1 s2 item (_ & ? & H1)%Hprep (_ & ? & H2)%Hprep.
    by eapply Hinj.
  - intros item. simpl. rewrite Hheap. split.
    + intros (p & s & Hp). exists p, false. apply Hprep. eauto.
    + intros (p & s & (_ & s' & Hp)%Hprep). eauto.
Qed.

Lemma coherent_insert_known st p s item :
  mCurrentFilesCache st !! p = Some (s, item) ->
  coherent st ->
  coherent (set_cache (<[p := (true, item)]> (mCurrentFilesCache st)) st).
Proof.
  rewrite !coherent_alt. intros Hp (Hinj & Hheap & Hnd & Hrows & Hbelow).
  assert (forall q item',
            (exists s', <[p := (true, item)]> (mCurrentFilesCache st) !! q
                        = Some (s', item')) <->
            (exists s', mCurrentFilesCache st !! q = Some (s', item'))) as Hsame.
  { intros q item'. destruct (decide (p = q)) as [<- | Hne].
    - rewrite lookup_insert_eq, Hp. naive_solver.
    - by rewrite lookup_insert_ne. }
  split_and!; try done; simpl.
  - intros p1 p2 s1 s2 item' H1 H2.
    destruct (proj1 (Hsame p1 item')) as [? H1']; [eauto|].
    destruct (proj1 (Hsame p2 item')) as [? H2']; [eauto|].
    by eapply Hinj.
  - intros item'. rewrite Hheap. split.
    + intros (q & s' & Hq).
      destruct (proj2 (Hsame q item')) as [? ?]; eauto.
    + intros (q & s' & Hq).
      destruct (proj1 (Hsame q item')) as [? ?]; eauto.
Qed.

Lemma all_rows_newItem fileList it st :
  all_rows (newItem fileList it st) ≡ₚ nextItem st :: all_rows st.
Proof.
  unfold all_rows. destruct fileList; simpl.
  - rewrite <- !app_assoc. simpl. by rewrite <- Permutation_middle.
  - rewrite <- !app_assoc. simpl. by rewrite <- !Permutation_middle.
  - rewrite !app_assoc, <- Permutation_cons_append. by rewrite <- !app_assoc.
Qed.

Lemma coherent_insert_new st p it fileList :
  mCurrentFilesCache st !! p = None ->
  coherent st ->
  coherent (set_cache (<[p := (true, nextItem st)]> (mCurrentFilesCache st))
              (newItem fileList it st)).
Proof.
  rewrite !coherent_alt. intros Hp (Hinj & Hheap & Hnd & Hrows & Hbelow).
  assert (forall q s' item',
            <[p := (true, nextItem st)]> (mCurrentFilesCache st) !! q
              = Some (s', item') <->
            (q = p /\ s' = true /\ item' = nextItem st) \/
            (q <> p /\ mCurrentFilesCache st !! q = Some (s', item'))) as Hrec.
  { intros q s' item'. destruct (decide (p = q)) as [<- | Hne].
    - rewrite lookup_insert_eq. naive_solver.
    - rewrite lookup_insert_ne by done. naive_solver. }
  assert (forall q s' item',
            mCurrentFilesCache st !! q = Some (s', item') ->
            (item' < nextItem st)%nat) as Hold.
  { intros q s' item' Hq. apply Hbelow, Hheap. eauto. }
  assert (forall item',
            is_Some (<[nextItem st := it]> (items st) !! item') <->
            item' = nextItem st \/ is_Some (items st !! item')) as Hnew.
  { intros item'. rewrite lookup_insert_is_Some'. naive_solver. }
  change (all_rows (set_cache ?c ?s)) with (all_rows s).
  split_and!.
  - simpl. intros p1 p2 s1 s2 item' [(-> & _ & ->) | [? H1]]%Hrec
      [(-> & _ & Heq) | [? H2]]%Hrec; try done.
    + apply Hold in H2. lia.
    + apply Hold in H1. lia.
    + by eapply Hinj.
  - simpl. intros item'. rewrite Hnew, Hheap. split.
    + intros [-> | (q & s' & Hq)].
      * exists p, true. apply Hrec. by left.
      * exists q, s'. apply Hrec. right. split; [congruence | done].
    + intros (q & s' & [(-> & _ & ->) | [? Hq]]%Hrec); [by left|].
      right. eauto.
  - rewrite all_rows_newItem. apply NoDup_cons. split; [|done].
    intros Hin%Hrows%Hbelow. lia.
  - intros item'. rewrite all_rows_newItem, elem_of_cons. simpl.
    by rewrite Hnew, Hrows.
  - simpl. intros item' [-> | Hin%Hbelow]%Hnew; lia.
Qed.

(** A property of the widget that both turns of the loop of [insertFiles]
    keep is kept by the loop. *)
Lemma insertFiles_from_preserves (P : WorkInProgressWidget.t -> Prop)
    files fileList :
  (forall st p s item,
     mCurrentFilesCache st !! p = Some (s, item) -> P st ->
     P (set_cache (<[p := (true, item)]> (mCurrentFilesCache st)) st)) ->
  (forall st p it,
     mCurrentFilesCache st !! p = None -> P st ->
     P (set_cache (<[p := (true, nextItem st)]> (mCurrentFilesCache st))
          (newItem fileList it st))) ->
  aligned files ->
  forall (ns : list nat) ps st st' acts,
    Forall2 (fun n p => mFiles files !! n = Some p) ns ps ->
    insertFiles_from files fileList (Z.of_nat <$> ns) st = Ok (st', acts) ->
    P st -> P st'.
Proof.
  intros Hknown Hnew Hal ns ps st st' acts Hns. revert st st' acts.
  induction Hns as [|n p ns ps Hn _ IH]; intros st st' acts.
  - simpl. by intros [= <- <-].
  - pose proof (QVector_at_of_nat _ _ _ Hn) as Hfile.
    destruct (getStatus_aligned files (Z.of_nat n) Hal) as (status & Hst & _).
    { by apply getFile_in_range with p. }
    rewrite fmap_cons. simpl insertFiles_from.
    destruct (mCurrentFilesCache st !! p) as [[s0 item0]|] eqn:Hp.
    + rewrite (insertFile_known _ _ _ _ _ _ _ Hfile Hp). simpl.
      destruct (insertFiles_from _ _ _ _) as [[st2 a2]|] eqn:Hrest; [|done].
      simpl. intros [= <- <-] HP.
      eapply IH; [exact Hrest|]. by eapply Hknown.
    + destruct (insertFile_new _ fileList _ _ _ _ Hfile Hst Hp)
        as (it & -> & _). simpl.
      destruct (insertFiles_from _ _ _ _) as [[st2 a2]|] eqn:Hrest; [|done].
      simpl. intros [= <- <-] HP.
      eapply IH; [exact Hrest|]. by apply Hnew.
Qed.

Lemma all_rows_clearCache st :
  all_rows (clearCache st).1 =
    filter (fun row => row ∉ (swept (QMap_entries (mCurrentFilesCache st))).*2.*2)
      (all_rows st).
Proof.
  unfold clearCache, all_rows.
  destruct (clearCache_fold (QMap_entries (mCurrentFilesCache st)) st [])
    as (_ & _ & _ & Hrows & _).
  change (rows_untracked ?s) with (rows s untrackedFilesList).
  change (rows_unstaged ?s) with (rows s unstagedFilesList).
  change (rows_staged ?s) with (rows s stagedFilesList).
  by rewrite !Hrows, !filter_app.
Qed.

Lemma coherent_clearCache st : coherent st -> coherent (clearCache st).1.
Proof.
  rewrite !coherent_alt. intros (Hinj & Hheap & Hnd & Hrows & Hbelow).
  assert (forall p s item,
            mCurrentFilesCache (clearCache st).1 !! p = Some (s, item) <->
            s = true /\ mCurrentFilesCache st !! p = Some (true, item)) as Hkept.
  { intros p s item. rewrite clearCache_cache.
    destruct (mCurrentFilesCache st !! p) as [[[] ?]|]; naive_solver. }
  assert (forall item,
            is_Some (items (clearCache st).1 !! item) <->
            exists p, mCurrentFilesCache st !! p = Some (true, item)) as Hitems.
  { intros item. split.
    - intros Hsome.
      destruct (decide (item ∈ cached_items st)) as [Hin | Hnone].
      + apply elem_of_cached_items in Hin as (k & [] & Hk); [by exists k|].
        rewrite (clearCache_items_swept _ _ _ Hk) in Hsome.
        by destruct Hsome.
      + rewrite clearCache_items_kept in Hsome.
        * apply Hheap, elem_of_cached_items in Hsome. done.
        * intros k Hk. apply Hnone, elem_of_cached_items. eauto.
    - intros [p Hp]. rewrite clearCache_items_kept.
      + apply Hheap. eauto.
      + intros k Hk. pose proof (Hinj _ _ _ _ _ Hp Hk) as ->. congruence. }
  split_and!.
  - intros p1 p2 s1 s2 item [_ H1]%Hkept [_ H2]%Hkept. by eapply Hinj.
  - intros item. rewrite Hitems. split.
    + intros [p Hp]. exists p, true. by apply Hkept.
    + intros (p & s & [_ Hp]%Hkept). eauto.
  - rewrite all_rows_clearCache. by apply NoDup_filter.
  - intros item. rewrite all_rows_clearCache, list_elem_of_filter, Hitems, Hrows.
    rewrite Hheap, elem_of_swept_items. split.
    + intros (Hk & p & [] & Hp); [eauto | destruct Hk; eauto].
    + intros [p Hp]. split; [|eauto].
      intros [k Hk]. pose proof (Hinj _ _ _ _ _ Hp Hk) as ->. congruence.
  - intros item [p Hp]%Hitems. rewrite clearCache_nextItem.
    apply Hbelow, Hheap. eauto.
Qed.

(** X1. The agreement of cache, heap and rows is kept by every pass over
    an aligned set: afterwards the records still own
    distinct items, the heap holds the items of the records and no other
    (no record dangles, no item is orphaned), and each item is still the
    row of exactly one list. *)
Theorem pass_keeps_coherent files st st' acts :
  aligned files ->
  coherent st ->
  configure files st = Ok (st', acts) ->
  coherent st'.
Proof.
  intros Hal Hcoh Hconf.
  destruct (configure_steps files st Hal) as (st1 & inserted & Hins & _ & Heq).
  rewrite Heq in Hconf. injection Hconf as <- <-.
  apply coherent_clearCache.
  eapply (insertFiles_from_preserves coherent files unstagedFilesList);
    [| |exact Hal|apply mFiles_indices|exact Hins|by apply coherent_prepareCache].
  - intros. by eapply coherent_insert_known.
  - intros. by apply coherent_insert_new.
Qed.

End coherence.

(** ** The actions of a pass *)

Section pass_diff.
Import RevisionFile WorkInProgressWidget WorkInProgressSlots.
Implicit Types (files : RevisionFile.t) (st : WorkInProgressWidget.t)
  (fileList : QListWidget) (p : string) (ps : list string) (item : nat)
  (known : gset string).

Lemma elem_of_fresh_paths ps : forall known p,
  p ∈ fresh_paths known ps <-> p ∈ ps /\ p ∉ known.
Proof.
  induction ps as [|q ps IH]; intros known p; simpl.
  - rewrite !elem_of_nil. tauto.
  - destruct (decide (q ∈ known)) as [Hq | Hq].
    + rewrite IH, elem_of_cons. split; [tauto|].
      intros [[Heq | Hin] Hnot].
      * subst. contradiction.
      * by split.
    + rewrite !elem_of_cons, IH, not_elem_of_union, not_elem_of_singleton.
      destruct (decide (p = q)) as [-> | Hne]; tauto.
Qed.

Lemma NoDup_fresh_paths ps : forall known, NoDup (fresh_paths known ps).
Proof.
  induction ps as [|q ps IH]; intros known; simpl; [constructor|].
  destruct (decide (q ∈ known)); [apply IH|].
  apply NoDup_cons. split; [|apply IH].
  rewrite elem_of_fresh_paths, not_elem_of_union, not_elem_of_singleton. tauto.
Qed.

(** The loop of [insertFiles] emits the [Insert]s in the order of the set,
    one for each path that is not cached, at its first occurrence. *)
Lemma insertFiles_from_paths files fileList :
  aligned files ->
  forall (ns : list nat) ps st st' acts,
    Forall2 (fun n p => mFiles files !! n = Some p) ns ps ->
    insertFiles_from files fileList (Z.of_nat <$> ns) st = Ok (st', acts) ->
    action_path <$> acts = fresh_paths (dom (mCurrentFilesCache st)) ps.
Proof.
  intros Hal ns ps st st' acts Hns. revert st st' acts.
  induction Hns as [|n p ns ps Hn _ IH]; intros st st' acts.
  - simpl. by intros [= <- <-].
  - pose proof (QVector_at_of_nat _ _ _ Hn) as Hfile.
    destruct (getStatus_aligned files (Z.of_nat n) Hal) as (status & Hst & _).
    { by apply getFile_in_range with p. }
    rewrite fmap_cons. simpl insertFiles_from.
    destruct (mCurrentFilesCache st !! p) as [[s0 item0]|] eqn:Hp.
    + rewrite (insertFile_known _ _ _ _ _ _ _ Hfile Hp). simpl.
      destruct (insertFiles_from _ _ _ _) as [[st2 a2]|] eqn:Hrest; [|done].
      intros [= <- <-]. change ([] ++ a2) with a2.
      rewrite (IH _ _ _ Hrest). cbn [fresh_paths mCurrentFilesCache set_cache].
      rewrite decide_True by (by eapply elem_of_dom_2).
      by rewrite (dom_insert_lookup_L _ _ _ (mk_is_Some _ _ Hp)).
    + destruct (insertFile_new _ fileList _ _ _ _ Hfile Hst Hp)
        as (it & -> & _). simpl.
      destruct (insertFiles_from _ _ _ _) as [[st2 a2]|] eqn:Hrest; [|done].
      intros [= <- <-]. rewrite fmap_cons, (IH _ _ _ Hrest).
      cbn [action_path mCurrentFilesCache set_cache newItem].
      rewrite decide_False by (by apply not_elem_of_dom).
      by rewrite dom_insert_L.
Qed.

Lemma key_le_trans : Transitive key_le.
Proof.
  assert (forall s1 s2, String.leb s1 s2 = true <->
                        s1 = s2 \/ OrderedTypeEx.String_as_OT.lt s1 s2) as Hleb.
  { intros s1 s2. unfold String.leb.
    rewrite <- OrderedTypeEx.String_as_OT.cmp_lt,
      <- OrderedTypeEx.String_as_OT.cmp_eq.
    unfold OrderedTypeEx.String_as_OT.cmp.
    destruct (String.compare s1 s2); intuition congruence. }
  intros [k1 v1] [k2 v2] [k3 v3]. unfold key_le. simpl.
  rewrite !Hleb. intros [-> | H12] [-> | H23]; eauto.
  right. by eapply OrderedTypeEx.String_as_OT.lt_trans.
Qed.

Lemma key_le_total : Total key_le.
Proof. intros e1 e2. unfold key_le. apply String.leb_total. Qed.

Lemma StronglySorted_filter {A} (R : relation A) (P : A -> Prop)
    `{!forall x, Decision (P x)} (l : list A) :
  StronglySorted R l -> StronglySorted R (filter P l).
Proof.
  induction 1 as [|x l _ IH Hx]; [constructor|].
  rewrite filter_cons. destruct (decide (P x)); [|done].
  constructor; [done|].
  apply Forall_forall. intros y [_ Hy]%list_elem_of_filter.
  by eapply Forall_forall in Hx.
Qed.

(** The sweep emits its [Remove]s in the order of the paths. *)
Lemma swept_keys_sorted (m : gmap string (bool * nat)) :
  StronglySorted (fun k1 k2 => String.leb k1 k2 = true)
    (swept (QMap_entries m)).*1.
Proof.
  assert (StronglySorted key_le (swept (QMap_entries m))) as Hsorted.
  { apply StronglySorted_filter. unfold QMap_entries.
    apply (@StronglySorted_merge_sort _ key_le _ key_le_trans key_le_total). }
  induction Hsorted as [|e l _ IH He]; [constructor|].
  rewrite fmap_cons. constructor; [done|].
  apply Forall_fmap. eapply Forall_impl; [exact He|]. by intros e'.
Qed.

(** The two halves of a pass: the loop of [insertFiles] inserts the paths
    of the set that are not cached, and the sweep removes the records of
    the cached paths that the set does not list. *)
Lemma configure_diff files st :
  aligned files ->
  exists st1 inserted,
    configure files st =
      Ok ((clearCache st1).1,
          inserted
          ++ (Remove <$> (swept (QMap_entries (mCurrentFilesCache st1))).*1)) /\
    Forall (fun a => is_Insert a = true) inserted /\
    action_path <$> inserted =
      fresh_paths (dom (mCurrentFilesCache st)) (mFiles files) /\
    (forall p,
       p ∈ (swept (QMap_entries (mCurrentFilesCache st1))).*1 <->
       is_Some (mCurrentFilesCache st !! p) /\ p ∉ mFiles files) /\
    dom (mCurrentFilesCache (clearCache st1).1) = list_to_set (mFiles files).
Proof.
  intros Hal.
  destruct (configure_steps files st Hal) as (st1 & inserted & Hins & Hvis & Heq).
  pose proof (configure_cache _ _ _ _ Hal Heq) as (Hseen & Hall & _).
  pose proof (insertFiles_from_paths files unstagedFilesList Hal _ _ _ _ _
                (mFiles_indices files) Hins) as Hpaths.
  simpl in Hpaths. rewrite dom_fmap_L in Hpaths.
  exists st1, inserted.
  split; [by rewrite Heq, clearCache_actions|]. split_and!.
  - eapply Forall_impl; [apply (visited_actions _ _ _ _ Hvis)|].
    by intros a (? & _).
  - done.
  - intros p. rewrite elem_of_swept_keys. split.
    + intros [item Hp].
      destruct (mCurrentFilesCache (prepareCache st) !! p)
        as [[s0 i0]|] eqn:H0.
      * rewrite (visited_known _ _ _ _ Hvis _ _ _ H0) in Hp.
        injection Hp as Hs _. apply orb_false_iff in Hs as [_ Hs].
        apply bool_decide_eq_false in Hs. split; [|done].
        rewrite prepareCache_cache in H0.
        by destruct (mCurrentFilesCache st !! p).
      * destruct (decide (p ∈ mFiles files)) as [Hin | Hin].
        -- destruct (visited_new _ _ _ _ Hvis p H0 Hin) as (i & Hi & _).
           congruence.
        -- rewrite (visited_other _ _ _ _ Hvis p H0 Hin) in Hp. done.
    + intros [[[s item] Hp] Hnot]. exists item.
      rewrite (visited_known _ _ _ _ Hvis p false item).
      * by rewrite bool_decide_eq_false_2.
      * by rewrite prepareCache_cache, Hp.
  - apply set_eq. intros p. rewrite elem_of_dom, elem_of_list_to_set. split.
    + intros [[s item] Hp]. by apply Hseen in Hp as [_ Hp].
    + apply Hall.
Qed.

(** X2. What a pass emits, for any widget and any aligned set: first the
    [Insert]s, one for each path of the set that was not cached, in the
    order of the set (a path listed twice is inserted at its first
    occurrence only); then the [Remove]s, one for each cached path that is
    not in the set, in the order of the paths.  Afterwards the cache holds
    the paths of the set and no other. *)
Theorem pass_actions files st :
  aligned files ->
  exists st' inserted removed,
    configure files st =
      Ok (st', inserted ++ (Remove <$> removed)) /\
    Forall (fun a => is_Insert a = true) inserted /\
    action_path <$> inserted =
      fresh_paths (dom (mCurrentFilesCache st)) (mFiles files) /\
    (forall p,
       p ∈ action_path <$> inserted <->
       p ∈ mFiles files /\ mCurrentFilesCache st !! p = None) /\
    NoDup (action_path <$> inserted) /\
    (forall p,
       p ∈ removed <->
       is_Some (mCurrentFilesCache st !! p) /\ p ∉ mFiles files) /\
    NoDup removed /\
    StronglySorted (fun k1 k2 => String.leb k1 k2 = true) removed /\
    dom (mCurrentFilesCache st') = list_to_set (mFiles files).
Proof.
  intros Hal.
  destruct (configure_diff files st Hal)
    as (st1 & inserted & Heq & Hins & Hpaths & Hrem & Hdom).
  exists (clearCache st1).1, inserted,
    (swept (QMap_entries (mCurrentFilesCache st1))).*1.
  split_and!; try done.
  - intros p. by rewrite Hpaths, elem_of_fresh_paths, not_elem_of_dom.
  - rewrite Hpaths. apply NoDup_fresh_paths.
  - apply NoDup_swept_keys.
  - apply swept_keys_sorted.
Qed.

End pass_diff.

(** ** The items of a pass *)

Section pass_items.
Import RevisionFile WorkInProgressWidget WorkInProgressSlots.
Implicit Types (files : RevisionFile.t) (st : WorkInProgressWidget.t)
  (fileList : QListWidget) (p : string) (ps : list string) (item : nat).

(** A record whose path is in the set goes through a pass with its item
    untouched, on the heap and in the rows. *)
Lemma configure_retained files st p s item :
  aligned files ->
  sound st ->
  mCurrentFilesCache st !! p = Some (s, item) ->
  p ∈ mFiles files ->
  exists st' acts,
    configure files st = Ok (st', acts) /\
    mCurrentFilesCache st' !! p = Some (true, item) /\
    items st' !! item = items st !! item /\
    (forall fileList, item ∈ rows st' fileList <-> item ∈ rows st fileList) /\
    ~ (p ∈ action_path <$> acts).
Proof.
  intros Hal Hsound Hp Hin.
  apply sound_alt in Hsound as [Hinj Hbelow].
  destruct (configure_steps files st Hal) as (st1 & inserted & _ & Hvis & Heq).
  eexists _, _. split; [exact Heq|].
  destruct (configure_cache _ _ _ _ Hal Heq) as (_ & _ & Hkeep).
  assert (mCurrentFilesCache (prepareCache st) !! p = Some (false, item)) as Hp0
    by (by rewrite prepareCache_cache, Hp).
  assert (mCurrentFilesCache st1 !! p = Some (true, item)) as Hp1.
  { rewrite (visited_known _ _ _ _ Hvis _ _ _ Hp0).
    by rewrite bool_decide_eq_true_2. }
  assert (forall k, mCurrentFilesCache st1 !! k <> Some (false, item)) as Hk.
  { intros k Hk.
    destruct (mCurrentFilesCache (prepareCache st) !! k) as [[s0 i0]|] eqn:H0.
    - rewrite (visited_known _ _ _ _ Hvis _ _ _ H0) in Hk.
      injection Hk as Hs ->.
      rewrite prepareCache_cache in H0.
      destruct (mCurrentFilesCache st !! k) as [[s' i']|] eqn:Hst; [|done].
      simpl in H0. injection H0 as <- ->.
      pose proof (Hinj _ _ _ _ _ Hp Hst) as <-.
      rewrite bool_decide_eq_true_2 in Hs by done. done.
    - destruct (decide (k ∈ mFiles files)) as [Hin' | Hin'].
      + destruct (visited_new _ _ _ _ Hvis k H0 Hin') as (i & Hi & _).
        congruence.
      + rewrite (visited_other _ _ _ _ Hvis k H0 Hin') in Hk. done. }
  assert ((item < nextItem (prepareCache st))%nat) as Hlt
    by (simpl; by eapply Hbelow).
  split_and!.
  - by eapply Hkeep.
  - rewrite (clearCache_items_kept _ _ Hk).
    by rewrite (visited_items _ _ _ _ Hvis _ Hlt).
  - intros fileList. rewrite (clearCache_rows_kept _ _ _ Hk).
    rewrite (visited_rows _ _ _ _ Hvis _ _ Hlt). by destruct fileList.
  - rewrite fmap_app, not_elem_of_app. split.
    + intros (a & -> & Ha)%list_elem_of_fmap.
      pose proof (visited_actions _ _ _ _ Hvis) as Hacts.
      rewrite Forall_forall in Hacts. destruct (Hacts a Ha) as (_ & Hnone & _).
      congruence.
    + rewrite clearCache_actions, <- list_fmap_compose.
      intros (k & -> & [i Hi]%elem_of_swept_keys)%list_elem_of_fmap.
      simpl in Hp1. congruence.
Qed.

(** The item the loop of [insertFiles] creates for a path that is not
    cached, at the first index where the set lists the path. *)
Lemma insertFiles_from_item files fileList :
  aligned files ->
  forall (ns : list nat) ps st st' acts,
    Forall2 (fun n p => mFiles files !! n = Some p) ns ps ->
    insertFiles_from files fileList (Z.of_nat <$> ns) st = Ok (st', acts) ->
    forall k n p status,
      ns !! k = Some n -> ps !! k = Some p -> p ∉ take k ps ->
      mCurrentFilesCache st !! p = None ->
      getStatus files (Z.of_nat n) = Ok status ->
      exists item it,
        mCurrentFilesCache st' !! p = Some (true, item) /\
        (nextItem st <= item)%nat /\
        items st' !! item = Some it /\
        item ∈ rows st' fileList /\
        QListWidgetItem.U_ListRole it =
          Some (if has_flag status UNKNOWN && negb (has_flag status IN_INDEX)
                then untrackedFilesList
                else if has_flag status IN_INDEX
                        && negb (has_flag status UNKNOWN)
                        && negb (has_flag status CONFLICT)
                then stagedFilesList else fileList) /\
        QListWidgetItem.U_IsConflict it = has_flag status CONFLICT /\
        QListWidgetItem.foreground it = Spec.color status /\
        QListWidgetItem.toolTip it = p.
Proof.
  intros Hal ns ps st st' acts Hns. revert st st' acts.
  induction Hns as [|n0 p0 ns ps Hn0 Hns IH];
    intros st st' acts Hrun k n p status Hk Hpk Hfirst Hnone Hstatus;
    [done|].
  pose proof (QVector_at_of_nat _ _ _ Hn0) as Hfile.
  destruct (getStatus_aligned files (Z.of_nat n0) Hal) as (status0 & Hst0 & _).
  { by apply getFile_in_range with p0. }
  rewrite fmap_cons in Hrun. simpl insertFiles_from in Hrun.
  destruct k as [|k]; simpl in Hk, Hpk.
  - injection Hk as ->. injection Hpk as ->.
    rewrite Hstatus in Hst0. injection Hst0 as <-.
    destruct (insertFile_new _ fileList _ _ _ _ Hfile Hstatus Hnone)
      as (it & Hstep & Hrole & Hconf & Hcol & Htip).
    rewrite Hstep in Hrun. simpl in Hrun.
    destruct (insertFiles_from _ _ _ _) as [[st2 a2]|] eqn:Hrest; [|done].
    simpl in Hrun. injection Hrun as <- <-.
    destruct (insertFiles_from_visited files fileList Hal ns ps
                (set_cache (<[p := (true, nextItem st)]> (mCurrentFilesCache st))
                   (newItem fileList it st)) Hns)
      as (st2' & a2' & Hrest' & Hvis).
    rewrite Hrest in Hrest'. injection Hrest' as <- <-.
    exists (nextItem st), it. split_and!; try done.
    + rewrite (visited_known _ _ _ _ Hvis p true (nextItem st)); [done|].
      simpl. apply lookup_insert_eq.
    + rewrite (visited_items _ _ _ _ Hvis) by (simpl; lia).
      simpl. apply lookup_insert_eq.
    + rewrite (visited_rows _ _ _ _ Hvis) by (simpl; lia).
      destruct fileList; simpl; apply elem_of_app; right; left.
  - assert (p <> p0) as Hne.
    { intros ->. apply Hfirst. simpl. left. }
    assert (p ∉ take k ps) as Hfirst'.
    { intros Hin. apply Hfirst. simpl. by right. }
    destruct (mCurrentFilesCache st !! p0) as [[s0 item0]|] eqn:Hp0.
    + rewrite (insertFile_known _ _ _ _ _ _ _ Hfile Hp0) in Hrun.
      simpl in Hrun.
      destruct (insertFiles_from _ _ _ _) as [[st2 a2]|] eqn:Hrest; [|done].
      simpl in Hrun. injection Hrun as <- <-.
      eapply (IH _ _ _ Hrest k n p status); try done.
      simpl. by rewrite lookup_insert_ne.
    + destruct (insertFile_new _ fileList _ _ _ _ Hfile Hst0 Hp0)
        as (it & Hstep & _).
      rewrite Hstep in Hrun. simpl in Hrun.
      destruct (insertFiles_from _ _ _ _) as [[st2 a2]|] eqn:Hrest; [|done].
      simpl in Hrun. injection Hrun as <- <-.
      destruct (IH _ _ _ Hrest k n p status) as (item & it' & Hc & Hge & Hit);
        try done.
      { simpl. by rewrite lookup_insert_ne. }
      exists item, it'. split; [done|]. split; [simpl in Hge; lia | done].
Qed.

(** The item of a path that a pass inserts, with its bucket as
    [insertFiles] computes it. *)
Lemma configure_new_item files st k p status :
  aligned files ->
  coherent st ->
  mFiles files !! k = Some p ->
  p ∉ take k (mFiles files) ->
  mCurrentFilesCache st !! p = None ->
  getStatus files (Z.of_nat k) = Ok status ->
  exists st' acts item it,
    configure files st = Ok (st', acts) /\
    mCurrentFilesCache st' !! p = Some (true, item) /\
    items st' !! item = Some it /\
    QListWidgetItem.U_ListRole it =
      Some (if has_flag status UNKNOWN && negb (has_flag status IN_INDEX)
            then untrackedFilesList
            else if has_flag status IN_INDEX
                    && negb (has_flag status UNKNOWN)
                    && negb (has_flag status CONFLICT)
            then stagedFilesList else unstagedFilesList) /\
    QListWidgetItem.U_IsConflict it = has_flag status CONFLICT /\
    QListWidgetItem.foreground it = Spec.color status /\
    QListWidgetItem.toolTip it = p /\
    item ∈ rows_unstaged st' /\
    coherent st'.
Proof.
  intros Hal Hcoh Hk Hfirst Hnone Hstatus.
  destruct (configure_steps files st Hal) as (st1 & inserted & Hins & _ & Heq).
  assert (coherent st1) as Hcoh1.
  { eapply (insertFiles_from_preserves coherent files unstagedFilesList);
      [| |exact Hal|apply mFiles_indices|exact Hins
       |by apply coherent_prepareCache].
    - intros. by eapply coherent_insert_known.
    - intros. by apply coherent_insert_new. }
  pose proof (coherent_clearCache _ Hcoh1) as Hcoh'.
  pose proof (lookup_lt_Some _ _ _ Hk) as Hlen.
  destruct (insertFiles_from_item files unstagedFilesList Hal _ _ _ _ _
              (mFiles_indices files) Hins k k p status)
    as (item & it & Hp1 & _ & Hit & Hrow & Hrole & Hconf & Hcol & Htip);
    try done.
  { apply lookup_seq_lt. unfold count. by rewrite Nat2Z.id. }
  { by rewrite prepareCache_cache, Hnone. }
  assert (forall q, mCurrentFilesCache st1 !! q <> Some (false, item)) as Hkept.
  { intros q Hq. apply coherent_alt in Hcoh1 as (Hinj & _).
    pose proof (Hinj _ _ _ _ _ Hp1 Hq) as ->. congruence. }
  assert (item ∈ rows_unstaged (clearCache st1).1) as Hrow'.
  { by apply (clearCache_rows_kept st1 item unstagedFilesList Hkept). }
  eexists _, _, item, it. split; [exact Heq|]. split_and!; try done.
  - by rewrite clearCache_cache, Hp1.
  - by rewrite (clearCache_items_kept _ _ Hkept).
Qed.

(** X3. The item a pass creates for a path of the set that was not cached:
    its bucket ([U_ListRole]), conflict mark and colour are those of the
    flags at the first index of the path, its tool tip is the path, and it
    is a row of the unstaged list, of no other list, also when its bucket is
    the untracked or the staged list. *)
Theorem pass_new_item files st k p status :
  aligned files ->
  coherent st ->
  mFiles files !! k = Some p ->
  p ∉ take k (mFiles files) ->
  mCurrentFilesCache st !! p = None ->
  getStatus files (Z.of_nat k) = Ok status ->
  exists st' acts item it,
    configure files st = Ok (st', acts) /\
    mCurrentFilesCache st' !! p = Some (true, item) /\
    items st' !! item = Some it /\
    QListWidgetItem.U_ListRole it = Some (Spec.bucket_list (Spec.bucket status)) /\
    QListWidgetItem.U_IsConflict it = has_flag status CONFLICT /\
    QListWidgetItem.foreground it = Spec.color status /\
    QListWidgetItem.toolTip it = p /\
    item ∈ rows_unstaged st' /\
    ~ (item ∈ rows_untracked st') /\
    ~ (item ∈ rows_staged st').
Proof.
  intros Hal Hcoh Hk Hfirst Hnone Hstatus.
  destruct (configure_new_item files st k p status Hal Hcoh Hk Hfirst Hnone
              Hstatus)
    as (st' & acts & item & it & Heq & Hp & Hit & Hrole & Hconf & Hcol & Htip
        & Hrow & Hcoh').
  apply coherent_alt in Hcoh' as (_ & _ & Hnd & _).
  unfold all_rows in Hnd.
  apply NoDup_app in Hnd as (_ & Hdisj1 & Hnd).
  apply NoDup_app in Hnd as (_ & Hdisj2 & _).
  exists st', acts, item, it. split_and!; try done.
  - rewrite Hrole. f_equal. unfold Spec.bucket. by repeat case_match.
  - intros Hin. apply (Hdisj1 _ Hin). apply elem_of_app. by left.
  - by apply Hdisj2.
Qed.

End pass_items.

(** ** Conflict marks across passes *)

Section stale_conflict.
Import RevisionFile WorkInProgressWidget WorkInProgressSlots.
Implicit Types (files : RevisionFile.t) (st : WorkInProgressWidget.t)
  (p : string) (item : nat).

(** With a conflicted record in the cache [commitChanges] gives up. *)
Lemma commitChanges_blocked
    (checkMsg : string -> string -> bool * string)
    (git_commitFiles : list string -> RevisionFile.t -> string -> bool)
    (wipFiles : RevisionFile.t) st :
  conflicted st ->
  exists effects,
    commitChanges checkMsg git_commitFiles wipFiles st = (false, st, effects) /\
    Forall (fun e => is_commitFiles e = false) effects.
Proof.
  intros Hconf%hasConflicts_conflicted. unfold commitChanges.
  case_bool_decide; simpl.
  - by exists [].
  - rewrite Hconf. eexists. split; [done|]. by repeat constructor.
Qed.

(** X4. A record whose item carries the conflict mark keeps it through every
    pass over a set that still lists its path, whatever flags the set has
    for the path by then: after the pass the cache is still conflicted and
    [commitChanges] still returns [false] without calling the commit. *)
Theorem conflict_mark_survives_pass files st p s item it :
  aligned files ->
  sound st ->
  mCurrentFilesCache st !! p = Some (s, item) ->
  items st !! item = Some it ->
  QListWidgetItem.U_IsConflict it = true ->
  p ∈ mFiles files ->
  exists st' acts,
    configure files st = Ok (st', acts) /\
    mCurrentFilesCache st' !! p = Some (true, item) /\
    items st' !! item = Some it /\
    hasConflicts st' = true /\
    forall checkMsg git_commitFiles wipFiles,
    exists effects,
      commitChanges checkMsg git_commitFiles wipFiles st' = (false, st', effects) /\
      Forall (fun e => is_commitFiles e = false) effects.
Proof.
  intros Hal Hsound Hp Hit Hconf Hin.
  destruct (configure_retained files st p s item Hal Hsound Hp Hin)
    as (st' & acts & Heq & Hp' & Hitem & _).
  assert (conflicted st') as Hconf'.
  { exists p, true, item, it. split_and!; [done | by rewrite Hitem | done]. }
  exists st', acts. split_and!; try done.
  - by rewrite Hitem.
  - by apply hasConflicts_conflicted.
  - intros. by apply commitChanges_blocked.
Qed.

End stale_conflict.

(** ** clear *)

Section clearing.
Import RevisionFile WorkInProgressWidget WorkInProgressSlots.
Implicit Types (files : RevisionFile.t) (st : WorkInProgressWidget.t)
  (fileList : QListWidget) (p : string) (item : nat) (l : list nat).

(** The deletion of a list of items, one after the other. *)
Lemma deleteItems_spec l : forall st,
  let r := foldl (fun st item => deleteItem item st) st l in
  (forall item,
     items r !! item = if decide (item ∈ l) then None else items st !! item) /\
  (forall fileList,
     rows r fileList = filter (fun row => row ∉ l) (rows st fileList)) /\
  mCurrentFilesCache r = mCurrentFilesCache st /\
  nextItem r = nextItem st /\
  leCommitTitle r = leCommitTitle st /\
  teDescription r = teDescription st /\
  lastMsgBeforeError r = lastMsgBeforeError st.
Proof.
  induction l as [|x l IH]; intros st; simpl.
  - split_and!; try done.
    intros fileList. symmetry. apply filter_Forall, Forall_forall.
    intros row _. apply not_elem_of_nil.
  - destruct (IH (deleteItem x st)) as (Hitems & Hrows & Hrest).
    split_and!; try apply Hrest.
    + intros item. rewrite Hitems. simpl.
      destruct (decide (item = x)) as [-> | Hne].
      * rewrite (decide_True (P := x ∈ x :: l)) by left.
        case_decide; [done | apply lookup_delete_eq].
      * rewrite lookup_delete_ne by done.
        destruct (decide (item ∈ l)) as [Hin | Hin].
        -- by rewrite decide_True by (by right).
        -- rewrite decide_False; [done|].
           rewrite elem_of_cons. tauto.
    + intros fileList. rewrite Hrows.
      destruct fileList; simpl; rewrite list_filter_filter;
        apply list_filter_iff; intros row; rewrite elem_of_cons; tauto.
Qed.

Lemma filter_none {A} (P : A -> Prop) `{!forall x, Decision (P x)}
    (xs : list A) :
  Forall (fun x => ~ P x) xs -> filter P xs = [].
Proof.
  induction 1 as [|x xs Hx _ IH]; [done|].
  by rewrite filter_cons_False.
Qed.

Lemma filter_not_elem_of_self l : filter (fun row => row ∉ l) l = [].
Proof. apply filter_none, Forall_forall. intros row Hin Hnot. done. Qed.

(** The widget [clear] leaves. *)
Lemma clear_spec st :
  (forall fileList, rows (clear st) fileList = []) /\
  mCurrentFilesCache (clear st) = ∅ /\
  (forall item,
     items (clear st) !! item =
       if decide (item ∈ all_rows st) then None else items st !! item) /\
  nextItem (clear st) = nextItem st /\
  leCommitTitle (clear st) = ""%string /\
  teDescription (clear st) = ""%string /\
  lastMsgBeforeError (clear st) = lastMsgBeforeError st.
Proof.
  unfold clear, clearList.
  set (l1 := rows st untrackedFilesList).
  destruct (deleteItems_spec l1 st) as (Hi1 & Hr1 & _ & Hn1 & _ & _ & Hm1).
  set (st1 := foldl _ st l1) in *.
  set (l2 := rows st1 unstagedFilesList).
  destruct (deleteItems_spec l2 st1) as (Hi2 & Hr2 & _ & Hn2 & _ & _ & Hm2).
  set (st2 := foldl _ st1 l2) in *.
  set (l3 := rows st2 stagedFilesList).
  destruct (deleteItems_spec l3 st2) as (Hi3 & Hr3 & _ & Hn3 & _ & _ & Hm3).
  set (st3 := foldl _ st2 l3) in *.
  split_and!; simpl; try done; try congruence.
  - intros [].
    + change (rows st3 untrackedFilesList = []).
      rewrite Hr3, Hr2, Hr1. fold l1.
      by rewrite filter_not_elem_of_self.
    + change (rows st3 unstagedFilesList = []).
      rewrite Hr3, Hr2. fold l2. by rewrite filter_not_elem_of_self.
    + change (rows st3 stagedFilesList = []).
      rewrite Hr3. fold l3. by rewrite filter_not_elem_of_self.
  - intros item. rewrite Hi3, Hi2, Hi1.
    assert (item ∈ all_rows st <-> item ∈ l1 \/ item ∈ l2 \/ item ∈ l3) as Hall.
    { unfold all_rows, l3, l2. rewrite Hr2, !Hr1, !elem_of_app.
      rewrite !list_elem_of_filter. unfold l2.
      rewrite Hr1, list_elem_of_filter.
      change (rows_untracked st) with l1.
      change (rows st unstagedFilesList) with (rows_unstaged st).
      change (rows st stagedFilesList) with (rows_staged st).
      destruct (decide (item ∈ l1)), (decide (item ∈ rows_unstaged st));
        tauto. }
    destruct (decide (item ∈ all_rows st)) as [Hin | Hin].
    + apply Hall in Hin. repeat case_decide; tauto.
    + rewrite !decide_False; [done|tauto..].
Qed.

(** The lookup of a path in the first place where the list has it. *)
Lemma elem_of_first (ps : list string) p :
  p ∈ ps -> exists k, ps !! k = Some p /\ p ∉ take k ps.
Proof.
  induction ps as [|q ps IH]; [by intros ?%elem_of_nil|].
  destruct (decide (p = q)) as [-> | Hne].
  - intros _. exists 0%nat. split; [done | apply not_elem_of_nil].
  - intros [? | Hin]%elem_of_cons; [done|].
    destruct (IH Hin) as (k & Hk & Hfirst). exists (S k). split; [done|].
    simpl. rewrite not_elem_of_cons. tauto.
Qed.

(** X5. [clear] empties the three lists and the cache, deletes every item
    that was a row (on a coherent widget the heap is left empty) and blanks
    the title and the description.  The pass that follows it on any aligned
    set removes nothing and inserts each path of the set, once, in the
    order of the set. *)
Theorem clear_then_pass files st :
  aligned files ->
  (forall fileList, rows (clear st) fileList = []) /\
  mCurrentFilesCache (clear st) = ∅ /\
  (forall item, item ∈ all_rows st -> items (clear st) !! item = None) /\
  (coherent st -> items (clear st) = ∅ /\ coherent (clear st)) /\
  leCommitTitle (clear st) = ""%string /\
  teDescription (clear st) = ""%string /\
  exists st' inserted,
    configure files (clear st) = Ok (st', inserted) /\
    Forall (fun a => is_Insert a = true) inserted /\
    action_path <$> inserted = fresh_paths ∅ (mFiles files) /\
    (forall p, p ∈ action_path <$> inserted <-> p ∈ mFiles files).
Proof.
  intros Hal.
  destruct (clear_spec st) as (Hrows & Hcache & Hitems & Hnext & Ht & Hd & _).
  assert (coherent st -> items (clear st) = ∅) as Hempty.
  { intros (_ & _ & _ & Hall & _)%coherent_alt. apply map_eq. intros item.
    rewrite Hitems, lookup_empty. case_decide as Hin; [done|].
    apply eq_None_not_Some. by rewrite <- Hall. }
  split_and!; try done.
  - intros item Hin. by rewrite Hitems, decide_True.
  - intros Hcoh. split; [by apply Hempty|].
    apply coherent_alt. rewrite (Hempty Hcoh), Hcache.
    unfold all_rows.
    change (rows_untracked ?s) with (rows s untrackedFilesList).
    change (rows_unstaged ?s) with (rows s unstagedFilesList).
    change (rows_staged ?s) with (rows s stagedFilesList).
    rewrite !Hrows. simpl. split_and!.
    + intros *. by rewrite lookup_empty.
    + intros item. rewrite lookup_empty. split; [by intros [? ?]|].
      intros (? & ? & Hp). by rewrite lookup_empty in Hp.
    + constructor.
    + intros item. rewrite lookup_empty, elem_of_nil.
      split; [done | by intros [? ?]].
    + intros item. rewrite lookup_empty. by intros [? ?].
  - destruct (configure_diff files (clear st) Hal)
      as (st1 & inserted & Heq & Hins & Hpaths & Hrem & _).
    destruct ((swept (QMap_entries (mCurrentFilesCache st1))).*1)
      as [|p removed].
    + exists (clearCache st1).1, inserted. rewrite app_nil_r in Heq.
      rewrite Hcache, dom_empty_L in Hpaths.
      split_and!; try done.
      intros p. rewrite Hpaths, elem_of_fresh_paths.
      split; [by intros [? _]|]. intros Hin. split; [done|].
      apply not_elem_of_empty.
    + destruct (proj1 (Hrem p)) as [[? Hp] _]; [left|].
      by rewrite Hcache, lookup_empty in Hp.
Qed.

End clearing.

(** ** revertAllChanges *)

Section reverting.
Import RevisionFile WorkInProgressWidget WorkInProgressSlots.
Variable checkoutFile : string -> bool.
Implicit Types (files : RevisionFile.t) (st : WorkInProgressWidget.t)
  (p : string) (item : nat) (l taken : list nat).

Lemma toolTips_live (heap : gmap nat QListWidgetItem.t) taken :
  Forall (fun item => is_Some (heap !! item)) taken ->
  exists tips,
    toolTips heap taken = Some tips /\
    Forall2 (fun item tip =>
               exists it, heap !! item = Some it /\
                          QListWidgetItem.toolTip it = tip) taken tips.
Proof.
  induction 1 as [|item taken [it Hit] _ (tips & Htips & Hall)]; simpl.
  - by exists [].
  - rewrite Hit, Htips. simpl. eexists. split; [done|].
    constructor; [by exists it | done].
Qed.

Lemma toolTips_dangling (heap : gmap nat QListWidgetItem.t) taken item :
  item ∈ taken -> heap !! item = None -> toolTips heap taken = None.
Proof.
  induction taken as [|x taken IH]; [by intros ?%elem_of_nil|].
  intros [-> | Hin]%elem_of_cons Hnone; simpl.
  - by rewrite Hnone.
  - destruct (heap !! x); [|done]. simpl. by rewrite IH.
Qed.

Lemma foldl_orb (f : string -> bool) (tips : list string) (b : bool) :
  foldl (fun acc file => orb acc (f file)) b tips = b || existsb f tips.
Proof.
  revert b. induction tips as [|t tips IH]; intros b; simpl.
  - by rewrite orb_false_r.
  - by rewrite IH, orb_assoc.
Qed.

Lemma taken_lookup taken : forall (heap : gmap nat QListWidgetItem.t) item,
  foldl (fun heap item => alter withoutWidget item heap) heap taken !! item =
    (if decide (item ∈ taken) then withoutWidget else id) <$> heap !! item.
Proof.
  induction taken as [|x taken IH]; intros heap item; simpl.
  - by destruct (heap !! item).
  - rewrite IH. destruct (decide (x = item)) as [-> | Hne].
    + rewrite lookup_alter_eq, (decide_True (P := item ∈ item :: taken)) by left.
      destruct (heap !! item); simpl; [|done]. by case_decide.
    + rewrite lookup_alter_ne by done.
      destruct (decide (item ∈ taken)) as [Hin | Hin].
      * by rewrite (decide_True (P := item ∈ x :: taken)) by (by right).
      * rewrite (decide_False (P := item ∈ x :: taken)); [done|].
        rewrite elem_of_cons. intros [-> | ?]; done.
Qed.

(** What [revertAllChanges] does when every row of the unstaged list is on
    the heap. *)
Lemma revertAllChanges_spec st :
  Forall (fun item => is_Some (items st !! item)) (rows_unstaged st) ->
  exists st' tips,
    revertAllChanges checkoutFile st =
      Some (st', tips, existsb checkoutFile tips) /\
    Forall2 (fun item tip =>
               exists it, items st !! item = Some it /\
                          QListWidgetItem.toolTip it = tip)
      (reverse (rows_unstaged st)) tips /\
    rows_unstaged st' = [] /\
    rows_untracked st' = rows_untracked st /\
    rows_staged st' = rows_staged st /\
    (forall item,
       items st' !! item =
         (if decide (item ∈ rows_unstaged st) then withoutWidget else id)
           <$> items st !! item) /\
    nextItem st' = nextItem st /\
    mCurrentFilesCache st' = mCurrentFilesCache st.
Proof.
  intros Hlive.
  destruct (toolTips_live (items st) (reverse (rows_unstaged st)))
    as (tips & Htips & Hall).
  { by apply Forall_reverse. }
  unfold revertAllChanges. rewrite Htips. simpl.
  eexists _, tips. rewrite foldl_orb. simpl. split_and!; try done.
  intros item. simpl. etrans; [apply taken_lookup|].
  destruct (decide (item ∈ rows_unstaged st)) as [Hin | Hin].
  - by rewrite decide_True by (by apply elem_of_reverse).
  - by rewrite decide_False by (by rewrite elem_of_reverse).
Qed.

(** X6. [revertAllChanges] on a widget whose unstaged rows are all on the
    heap: [checkoutFile] is called once for each row, on the tool tip of
    its item, from the last row to the first, and every row is processed
    also after a checkout has succeeded; [signalCheckoutPerformed] is
    emitted exactly when some checkout succeeded.  The unstaged list ends up
    empty whatever the outcomes, while the items stay on the heap and the
    cache keeps its records; the items of the rows have lost their widget,
    the other items are untouched.  With a row that is not on the heap the
    slot dereferences a dangling pointer. *)
Theorem revertAllChanges_effect st :
  (Forall (fun item => is_Some (items st !! item)) (rows_unstaged st) ->
   exists st' tips signal,
     revertAllChanges checkoutFile st = Some (st', tips, signal) /\
     Forall2 (fun item tip =>
                exists it, items st !! item = Some it /\
                           QListWidgetItem.toolTip it = tip)
       (reverse (rows_unstaged st)) tips /\
     (signal = true <-> exists tip, tip ∈ tips /\ checkoutFile tip = true) /\
     rows_unstaged st' = [] /\
     rows_untracked st' = rows_untracked st /\
     rows_staged st' = rows_staged st /\
     (forall item,
        items st' !! item =
          (if decide (item ∈ rows_unstaged st) then withoutWidget else id)
            <$> items st !! item) /\
     mCurrentFilesCache st' = mCurrentFilesCache st) /\
  (forall item,
     item ∈ rows_unstaged st -> items st !! item = None ->
     revertAllChanges checkoutFile st = None).
Proof.
  split.
  - intros Hlive.
    destruct (revertAllChanges_spec st Hlive)
      as (st' & tips & Heq & Hall & Hu & Hun & Hs & Hi & _ & Hc).
    exists st', tips, (existsb checkoutFile tips). split_and!; try done.
    rewrite existsb_exists. split.
    + intros (tip & Hin%list_elem_of_In & Hco). eauto.
    + intros (tip & Hin%list_elem_of_In & Hco). eauto.
  - intros item Hin Hnone. unfold revertAllChanges.
    rewrite (toolTips_dangling _ _ item); [done | | done].
    by apply elem_of_reverse.
Qed.

(** X7. After [revertAllChanges] the reverted paths are still cached.  When
    the next pass runs over a set that still lists such a path (the
    checkout failed, or the file changed again), the pass takes the path for
    displayed: it emits no action for it and keeps its record, although the
    item of the record is a row of no list any more. *)
Theorem revert_then_pass files st p s item :
  aligned files ->
  coherent st ->
  mCurrentFilesCache st !! p = Some (s, item) ->
  item ∈ rows_unstaged st ->
  p ∈ mFiles files ->
  exists st1 tips signal st2 acts,
    revertAllChanges checkoutFile st = Some (st1, tips, signal) /\
    configure files st1 = Ok (st2, acts) /\
    ~ (p ∈ action_path <$> acts) /\
    mCurrentFilesCache st2 !! p = Some (true, item) /\
    is_Some (items st2 !! item) /\
    forall fileList, item ∉ rows st2 fileList.
Proof.
  intros Hal Hcoh Hp Hrow Hin.
  pose proof (coherent_sound _ Hcoh) as Hsound.
  pose proof Hcoh as (_ & Hheap & Hnd & Hrows & _)%coherent_alt.
  destruct (revertAllChanges_spec st)
    as (st1 & tips & Heq & _ & Hu & Hun & Hs & Hi & Hn & Hc).
  { apply Forall_forall. intros row Hin'. apply Hrows.
    unfold all_rows. rewrite !elem_of_app. tauto. }
  assert (sound st1) as Hsound1.
  { apply sound_alt. apply sound_alt in Hsound. by rewrite Hc, Hn. }
  destruct (configure_retained files st1 p s item Hal Hsound1)
    as (st2 & acts & Hconf & Hp2 & Hitem & Hrows2 & Hacts); [by rewrite Hc|done|].
  exists st1, tips, (existsb checkoutFile tips), st2, acts.
  split_and!; try done.
  - rewrite Hitem, Hi, fmap_is_Some. apply Hheap. eauto.
  - intros fileList. rewrite Hrows2.
    unfold all_rows in Hnd.
    apply NoDup_app in Hnd as (_ & Hdisj1 & Hnd).
    apply NoDup_app in Hnd as (_ & Hdisj2 & _).
    destruct fileList; simpl.
    + rewrite Hun. intros Hin'. apply (Hdisj1 _ Hin').
      apply elem_of_app. by left.
    + rewrite Hu. apply not_elem_of_nil.
    + rewrite Hs. by apply Hdisj2.
Qed.

End reverting.

(** ** The handler of signalConflictsResolved *)

Section resolving.
Import RevisionFile WorkInProgressWidget WorkInProgressSlots.
Implicit Types (files : RevisionFile.t) (st : WorkInProgressWidget.t)
  (p : string) (item : nat) (it : QListWidgetItem.t) (w : FileWidget.t).

(** The edit of the item succeeds on a row of the unstaged list that has a
    widget, and touches that item only. *)
Lemma conflictsResolved_spec st item it w :
  items st !! item = Some it ->
  item ∈ rows_unstaged st ->
  QListWidgetItem.itemWidget it = Some w ->
  exists st' it',
    conflictsResolved item st = Some st' /\
    items st' = <[item := it']> (items st) /\
    QListWidgetItem.U_IsConflict it' = false /\
    QListWidgetItem.foreground it' = getGreen /\
    QListWidgetItem.text it' =
      trimmed (QString_remove "(conflicts)" (FileWidget.text w)) /\
    QListWidgetItem.U_ListRole it' = QListWidgetItem.U_ListRole it /\
    QListWidgetItem.U_Name it' = QListWidgetItem.U_Name it /\
    QListWidgetItem.toolTip it' = QListWidgetItem.toolTip it /\
    QListWidgetItem.itemWidget it' = Some w /\
    (forall fileList, rows st' fileList = rows st fileList) /\
    mCurrentFilesCache st' = mCurrentFilesCache st /\
    nextItem st' = nextItem st.
Proof.
  intros Hit Hrow Hw. unfold conflictsResolved, itemWidget.
  rewrite Hit. simpl. rewrite decide_True by done.
  simpl. rewrite Hw. simpl.
  eexists _, _. split; [reflexivity|]. by split_and!.
Qed.

Lemma coherent_edit st st' item it' :
  is_Some (items st !! item) ->
  items st' = <[item := it']> (items st) ->
  (forall fileList, rows st' fileList = rows st fileList) ->
  mCurrentFilesCache st' = mCurrentFilesCache st ->
  nextItem st' = nextItem st ->
  coherent st -> coherent st'.
Proof.
  intros Hsome Hitems Hrows Hcache Hnext.
  rewrite !coherent_alt. unfold all_rows.
  change (rows_untracked ?s) with (rows s untrackedFilesList).
  change (rows_unstaged ?s) with (rows s unstagedFilesList).
  change (rows_staged ?s) with (rows s stagedFilesList).
  rewrite !Hrows, Hcache, Hnext, Hitems.
  assert (forall i, is_Some (<[item := it']> (items st) !! i) <->
                    is_Some (items st !! i)) as Hsame.
  { intros i. rewrite lookup_insert_is_Some'.
    split; [intros [<- | ?]; done | by right]. }
  intros (Hinj & Hheap & Hnd & Hall & Hbelow). split_and!; try done.
  - intros i. by rewrite Hsame.
  - intros i. by rewrite Hsame.
  - intros i. rewrite Hsame. apply Hbelow.
Qed.

(** X8. The handler on a conflicted row of the unstaged list: the item
    loses the conflict mark and turns green, while its bucket
    ([U_ListRole]), its tool tip and its widget (icon, text, colour and
    slot) stay as they were.  When no other record is conflicted and the
    work in progress has no entry with the CONFLICT flag, the pass the
    handler ends with leaves a cache without conflict, so that
    [commitChanges] is no longer stopped by [hasConflicts]. *)
Theorem conflictsResolved_unblocks files st p s item it w :
  aligned files ->
  coherent st ->
  mCurrentFilesCache st !! p = Some (s, item) ->
  items st !! item = Some it ->
  item ∈ rows_unstaged st ->
  QListWidgetItem.itemWidget it = Some w ->
  (forall q s' item' it',
     mCurrentFilesCache st !! q = Some (s', item') ->
     items st !! item' = Some it' ->
     QListWidgetItem.U_IsConflict it' = true -> q = p) ->
  (forall k status,
     getStatus files k = Ok status -> has_flag status CONFLICT = false) ->
  exists st1 it1 st2 acts,
    conflictsResolved item st = Some st1 /\
    items st1 !! item = Some it1 /\
    QListWidgetItem.U_IsConflict it1 = false /\
    QListWidgetItem.foreground it1 = getGreen /\
    QListWidgetItem.U_ListRole it1 = QListWidgetItem.U_ListRole it /\
    QListWidgetItem.toolTip it1 = QListWidgetItem.toolTip it /\
    QListWidgetItem.itemWidget it1 = Some w /\
    onConflictsResolved files item st = Some (Ok (st2, acts)) /\
    hasConflicts st2 = false.
Proof.
  intros Hal Hcoh Hp Hit Hrow Hw Honly Hclean.
  destruct (conflictsResolved_spec st item it w Hit Hrow Hw)
    as (st1 & it1 & Hedit & Hitems & Hconf & Hgreen & _ & Hrole & _ & Htip
        & Hw1 & Hrows & Hcache & Hnext).
  assert (coherent st1) as Hcoh1.
  { by eapply (coherent_edit st st1 item it1). }
  pose proof (coherent_sound _ Hcoh1) as Hsound1.
  destruct (configure_steps files st1 Hal) as (stm & inserted & _ & _ & Heq).
  set (st2 := (clearCache stm).1) in *.
  exists st1, it1, st2, (inserted ++ (clearCache stm).2).
  split_and!; try done.
  - rewrite Hitems. apply lookup_insert_eq.
  - unfold onConflictsResolved. rewrite Hedit. simpl. by rewrite Heq.
  - apply not_true_is_false. intros Hhas%hasConflicts_conflicted.
    destruct Hhas as (q & s' & item' & it' & Hq & Hit' & Hmark).
    destruct (configure_cache _ _ _ _ Hal Heq) as (Hseen & _ & _).
    destruct (Hseen _ _ _ Hq) as [-> Hin].
    destruct (mCurrentFilesCache st1 !! q) as [[s0 i0]|] eqn:Hq1.
    + destruct (configure_retained files st1 q s0 i0 Hal Hsound1 Hq1 Hin)
        as (st2' & acts' & Heq' & Hq2 & Hkept & _).
      rewrite Heq in Heq'. injection Heq' as <- _.
      rewrite Hq in Hq2. injection Hq2 as ->.
      rewrite Hkept, Hitems in Hit'.
      destruct (decide (item = i0)) as [<- | Hne].
      * rewrite lookup_insert_eq in Hit'. injection Hit' as <-. congruence.
      * rewrite lookup_insert_ne in Hit' by done.
        rewrite Hcache in Hq1.
        pose proof (Honly _ _ _ _ Hq1 Hit' Hmark) as ->.
        rewrite Hp in Hq1. by injection Hq1 as _ ->.
    + destruct (elem_of_first _ _ Hin) as (k & Hk & Hfirst).
      destruct (getStatus_aligned files (Z.of_nat k) Hal) as (status & Hst & _).
      { pose proof (lookup_lt_Some _ _ _ Hk). unfold count. lia. }
      destruct (configure_new_item files st1 k q status Hal Hcoh1 Hk Hfirst
                  Hq1 Hst)
        as (st2' & acts' & i' & it'' & Heq' & Hq2 & Hit2 & _ & Hmark' & _).
      rewrite Heq in Heq'. injection Heq' as <- _.
      rewrite Hq in Hq2. injection Hq2 as ->.
      rewrite Hit' in Hit2. injection Hit2 as ->.
      rewrite (Hclean _ _ Hst) in Hmark'. congruence.
Qed.

End resolving.

(** ** The conflict marker *)

Section marker.
Import RevisionFile WorkInProgressWidget WorkInProgressSlots.
Implicit Types (s t needle p : string) (c : ascii).

Lemma startsWith_elem s : forall needle c,
  startsWith s needle = true ->
  c ∈ String.list_ascii_of_string needle -> c ∈ String.list_ascii_of_string s.
Proof.
  induction s as [|d s IH]; intros [|e needle] c; simpl; try done.
  all: try (by intros _ ?%elem_of_nil).
  intros [He Hrest]%andb_true_iff. apply bool_decide_eq_true in He as ->.
    intros [-> | Hin]%elem_of_cons; [left | right]. by eapply IH.
Qed.

(** A string without the last character of the needle has no occurrence of
    it, and [QString::remove] returns it as it is. *)
Lemma QString_remove_absent needle c s :
  c ∈ String.list_ascii_of_string needle ->
  c ∉ String.list_ascii_of_string s ->
  QString_remove needle s = s.
Proof.
  intros Hneedle Hs. unfold QString_remove.
  destruct needle as [|e needle]; [done|].
  induction s as [|d s IH]; [done|].
  cbn [remove_from].
  destruct (startsWith (String d s) (String e needle)) eqn:Hstart.
  - destruct Hs. by eapply startsWith_elem.
  - f_equal. apply IH. intros Hin. apply Hs. simpl. by right.
Qed.

Lemma trimmed_right_snoc s c :
  isSpace c = false ->
  trimmed_right (s +:+ String c "") = s +:+ String c "".
Proof.
  intros Hc. induction s as [|d s IH]; simpl.
  - by rewrite Hc.
  - rewrite IH. by destruct s.
Qed.

Lemma string_app_assoc s t u : (s +:+ t) +:+ u = s +:+ (t +:+ u).
Proof.
  induction s as [|c s IH]; [done|].
  change (String c ((s +:+ t) +:+ u) = String c (s +:+ (t +:+ u))).
  by rewrite IH.
Qed.

Lemma list_ascii_of_string_app s t :
  String.list_ascii_of_string (s +:+ t) =
    String.list_ascii_of_string s ++ String.list_ascii_of_string t.
Proof.
  induction s as [|c s IH]; [done|].
  change (c :: String.list_ascii_of_string (s +:+ t) =
          c :: (String.list_ascii_of_string s ++ String.list_ascii_of_string t)).
  by rewrite IH.
Qed.

(** The marker [insertFiles] writes is not the one the handler removes. *)
Lemma marker_kept p c :
  ")"%char ∉ String.list_ascii_of_string (String c p) ->
  isSpace c = false ->
  trimmed (QString_remove "(conflicts)" (String c p +:+ " (conflicts")) =
    String c p +:+ " (conflicts".
Proof.
  intros Hp Hc.
  rewrite (QString_remove_absent _ ")"%char).
  - set (t := String c p +:+ " (conflicts").
    assert (t = (String c p +:+ " (conflict") +:+ String "s" "") as Ht
      by (by rewrite string_app_assoc).
    assert (trimmed_left t = t) as Hleft.
    { unfold t. change (String c p +:+ " (conflicts")
        with (String c (p +:+ " (conflicts")).
      cbn [trimmed_left]. by rewrite Hc. }
    unfold trimmed. rewrite Hleft, Ht. by apply trimmed_right_snoc.
  - simpl. rewrite !elem_of_cons. tauto.
  - change (String c p +:+ " (conflicts") with (String c (p +:+ " (conflicts")).
    cbn [String.list_ascii_of_string] in *.
    rewrite list_ascii_of_string_app.
    apply not_elem_of_cons in Hp as [Hne Hp].
    rewrite not_elem_of_cons, not_elem_of_app. split_and!; [done..|].
    simpl. rewrite !not_elem_of_cons. split_and!; try done.
    apply not_elem_of_nil.
Qed.

(** X9. The marker of a conflicted entry is never taken off.  For a path
    that has no closing parenthesis and does not start with white space,
    [insertFiles] shows the entry as the path followed by [" (conflicts"],
    without a closing parenthesis, whereas the handler of
    [signalConflictsResolved] looks for ["(conflicts)"]: after the handler
    the text of the item is the path with the marker still in it, and the
    widget of the row shows the same text as before. *)
Theorem conflict_marker_survives_handler files i st c p status :
  getFile files i = Ok (String c p) ->
  getStatus files i = Ok status ->
  has_flag status CONFLICT = true ->
  mCurrentFilesCache st !! String c p = None ->
  ")"%char ∉ String.list_ascii_of_string (String c p) ->
  isSpace c = false ->
  exists st1 acts st2 it w,
    insertFile files unstagedFilesList i st = Ok (st1, acts) /\
    conflictsResolved (nextItem st) st1 = Some st2 /\
    items st2 !! nextItem st = Some it /\
    QListWidgetItem.U_IsConflict it = false /\
    QListWidgetItem.text it = String c p +:+ " (conflicts" /\
    QListWidgetItem.U_Name it = String c p +:+ " (conflicts" /\
    QListWidgetItem.itemWidget it = Some w /\
    FileWidget.text w = String c p +:+ " (conflicts" /\
    FileWidget.textColor w = getBlue.
Proof.
  intros Hfile Hst Hconf Hnew Hp Hc.
  pose proof (getFile_in_range _ _ _ Hfile) as Hidx.
  unfold insertFile. rewrite Hfile. simpl. rewrite Hnew.
  rewrite bool_decide_eq_false_2 by (by intros [? ?]). simpl.
  rewrite !(statusCmp_in_range _ _ _ Hidx Hst). simpl.
  rewrite (getColorForFile_spec _ _ _ Hidx Hst). simpl.
  rewrite Hconf. unfold Spec.color. rewrite Hconf.
  eexists _, _, _, _, _. split; [reflexivity|].
  split.
  { unfold conflictsResolved, itemWidget. simpl.
    rewrite lookup_insert_eq. simpl.
    rewrite decide_True by (apply elem_of_app; right; left).
    simpl. reflexivity. }
  simpl. rewrite lookup_insert_eq. split; [reflexivity|]. simpl.
  split_and!; try done.
  by apply marker_kept.
Qed.

End marker.

(** ** Committing, whatever the outcome *)

Section commit_frame.
Import RevisionFile WorkInProgressWidget WorkInProgressSlots.
Variable checkMsg : string -> string -> bool * string.
Variable git_commitFiles : list string -> RevisionFile.t -> string -> bool.
Variable wipFiles : RevisionFile.t.
Implicit Types (st : WorkInProgressWidget.t).

(** X10. [commitChanges] never touches the heap, the rows or the cache: the
    staged files stay listed until a later pass.  It returns [true] exactly
    when it has called the commit, also when the commit itself failed; the
    title and the description are blanked in that case only, and
    [lastMsgBeforeError] then holds the message if the commit failed and is
    empty if it succeeded.  When it returns [false] the widget is
    unchanged. *)
Theorem commitChanges_frame st :
  exists done st' effects,
    commitChanges checkMsg git_commitFiles wipFiles st = (done, st', effects) /\
    items st' = items st /\
    (forall fileList, rows st' fileList = rows st fileList) /\
    mCurrentFilesCache st' = mCurrentFilesCache st /\
    (done = false -> st' = st) /\
    (done = true <-> exists e, e ∈ effects /\ is_commitFiles e = true) /\
    (done = true ->
     exists msg success,
       checkMsg (leCommitTitle st) (teDescription st) = (true, msg) /\
       success = git_commitFiles (getFiles st) wipFiles msg /\
       effects = [commitFiles (getFiles st) wipFiles msg;
                  signalChangesCommitted success] /\
       leCommitTitle st' = ""%string /\
       teDescription st' = ""%string /\
       lastMsgBeforeError st' = if success then ""%string else msg).
Proof.
  unfold commitChanges.
  assert (forall e : Effect, e ∈ @nil Effect -> False) as Hnil
    by (by intros e ?%elem_of_nil).
  case_bool_decide; simpl.
  - eexists false, st, []. split_and!; try done.
    split; [done | by intros (e & ?%Hnil & _)].
  - destruct (hasConflicts st).
    + eexists false, st, [_]. split_and!; try done.
      split; [done|]. by intros (e & ->%list_elem_of_singleton & ?).
    + destruct (checkMsg (leCommitTitle st) (teDescription st)) as [[] msg].
      * eexists true, _, _. split_and!; try done.
        -- split; [|done]. intros _. eexists. split; [left | done].
        -- intros _. by eexists _, _.
      * eexists false, st, []. split_and!; try done.
        split; [done | by intros (e & ?%Hnil & _)].
Qed.

End commit_frame.

(** ** The added properties at the sample sets and widgets *)

Section more_samples.
Import RevisionFile WorkInProgressWidget WorkInProgressSlots Samples MoreSamples.

Lemma pass_keeps_coherent_witness :
  coherent st_abc /\ coherent (after files_acd st_abc).
Proof.
  assert (coherent st_abc) as Hcoh by by_decide.
  split; [exact Hcoh|].
  destruct (configure files_acd st_abc) as [[st' acts]|] eqn:Hconf.
  - unfold after. rewrite Hconf.
    exact (pass_keeps_coherent files_acd st_abc st' acts eq_refl Hcoh Hconf).
  - vm_compute in Hconf. discriminate.
Defined.

Lemma pass_actions_witness :
  exists st' inserted removed,
    configure files_acd st_abc = Ok (st', inserted ++ (Remove <$> removed)) /\
    action_path <$> inserted = ["d"]%string /\
    (forall p, p ∈ removed <->
               is_Some (mCurrentFilesCache st_abc !! p) /\ p ∉ mFiles files_acd).
Proof.
  destruct (pass_actions files_acd st_abc eq_refl)
    as (st' & inserted & removed & Heq & _ & Hpaths & _ & _ & Hrem & _).
  exists st', inserted, removed. split; [exact Heq|].
  split; [|exact Hrem]. rewrite Hpaths. vm_compute. reflexivity.
Defined.

Lemma pass_new_item_witness :
  exists st' acts item it,
    configure files_abc WorkInProgressWidget.new = Ok (st', acts) /\
    mCurrentFilesCache st' !! "b"%string = Some (true, item) /\
    items st' !! item = Some it /\
    QListWidgetItem.U_ListRole it = Some untrackedFilesList /\
    item ∈ rows_unstaged st' /\
    ~ (item ∈ rows_untracked st').
Proof.
  destruct (pass_new_item files_abc WorkInProgressWidget.new 1 "b"
              (flags_of [UNKNOWN]))
    as (st' & acts & item & it & Heq & Hb & Hit & Hrole & _ & _ & _ & Hrow
        & Hnot & _).
  - reflexivity.
  - by_decide.
  - reflexivity.
  - by_decide.
  - reflexivity.
  - reflexivity.
  - exists st', acts, item, it. split; [exact Heq|]. split; [exact Hb|].
    split; [exact Hit|]. split; [exact Hrole|]. split; [exact Hrow | exact Hnot].
Defined.

Lemma conflict_mark_survives_pass_witness :
  exists st' acts,
    configure files_resolved st_conflict = Ok (st', acts) /\
    hasConflicts st' = true /\
    exists effects,
      commitChanges checkMsg_title commit_succeeds files_resolved st'
        = (false, st', effects) /\
      Forall (fun e => is_commitFiles e = false) effects.
Proof.
  destruct (conflict_mark_survives_pass files_resolved st_conflict "x" true 0
              item_x)
    as (st' & acts & Heq & _ & _ & Hhas & Hcommit).
  - reflexivity.
  - by_decide.
  - vm_compute. reflexivity.
  - vm_compute. reflexivity.
  - reflexivity.
  - by_decide.
  - exists st', acts. split; [exact Heq|]. split; [exact Hhas|].
    exact (Hcommit checkMsg_title commit_succeeds files_resolved).
Defined.

Lemma clear_then_pass_witness :
  (forall fileList, rows (clear st_abc) fileList = []) /\
  items (clear st_abc) = ∅ /\
  exists st' inserted,
    configure files_abc (clear st_abc) = Ok (st', inserted) /\
    action_path <$> inserted = ["a"; "b"; "c"]%string.
Proof.
  destruct (clear_then_pass files_abc st_abc eq_refl)
    as (Hrows & _ & _ & Hcoh & _ & _ & st' & inserted & Heq & _ & Hpaths & _).
  split; [exact Hrows|]. split.
  - apply Hcoh. by_decide.
  - exists st', inserted. split; [exact Heq|].
    rewrite Hpaths. vm_compute. reflexivity.
Defined.

Lemma revertAllChanges_effect_witness :
  exists st' tips,
    revertAllChanges checkout_b st_abc = Some (st', tips, true) /\
    rows_unstaged st' = [] /\
    mCurrentFilesCache st' = mCurrentFilesCache st_abc.
Proof.
  destruct (revertAllChanges_effect checkout_b st_abc) as [Hlive _].
  destruct Hlive as (st' & tips & signal & Heq & _ & Hsignal & Hu & _ & _ & _
                     & Hc).
  - by_decide.
  - exists st', tips. split; [|split; [exact Hu | exact Hc]].
    rewrite Heq. vm_compute in Heq. injection Heq as _ _ <-. reflexivity.
Defined.

Lemma revert_then_pass_witness :
  exists st1 tips signal st2 acts,
    revertAllChanges checkout_b st_abc = Some (st1, tips, signal) /\
    configure files_abc st1 = Ok (st2, acts) /\
    ~ ("a"%string ∈ action_path <$> acts) /\
    mCurrentFilesCache st2 !! "a"%string = Some (true, 0%nat) /\
    is_Some (items st2 !! 0%nat) /\
    forall fileList, 0%nat ∉ rows st2 fileList.
Proof.
  apply (revert_then_pass checkout_b files_abc st_abc "a" true 0).
  - reflexivity.
  - by_decide.
  - vm_compute. reflexivity.
  - by_decide.
  - by_decide.
Defined.

Lemma conflictsResolved_unblocks_witness :
  exists st1 st2 acts,
    conflictsResolved 0 st_conflict = Some st1 /\
    onConflictsResolved files_resolved 0 st_conflict = Some (Ok (st2, acts)) /\
    hasConflicts st_conflict = true /\
    hasConflicts st2 = false.
Proof.
  destruct (conflictsResolved_unblocks files_resolved st_conflict "x" true 0
              item_x widget_x)
    as (st1 & it1 & st2 & acts & Hedit & _ & _ & _ & _ & _ & _ & Hon & Hhas).
  - reflexivity.
  - by_decide.
  - vm_compute. reflexivity.
  - vm_compute. reflexivity.
  - by_decide.
  - reflexivity.
  - intros q s' item' it' Hq _ _.
    apply elem_of_dom_2 in Hq.
    assert (dom (mCurrentFilesCache st_conflict) = {["x"%string]}) as Hdom
      by (vm_compute; reflexivity).
    rewrite Hdom in Hq. by apply elem_of_singleton in Hq.
  - intros k status Hk. unfold getStatus, QVector.at_ in Hk.
    case_bool_decide as Hrange; [|discriminate].
    assert (k = 0) as -> by (simpl in Hrange; lia).
    by injection Hk as <-.
  - exists st1, st2, acts. split; [exact Hedit|]. split; [exact Hon|].
    split; [vm_compute; reflexivity | exact Hhas].
Defined.

Lemma conflict_marker_survives_handler_witness :
  exists st1 acts st2 it,
    insertFile files_conflict unstagedFilesList 0 WorkInProgressWidget.new
      = Ok (st1, acts) /\
    conflictsResolved 0 st1 = Some st2 /\
    items st2 !! 0%nat = Some it /\
    QListWidgetItem.text it = "x (conflicts"%string.
Proof.
  destruct (conflict_marker_survives_handler files_conflict 0
              WorkInProgressWidget.new "x" "" (flags_of [CONFLICT; IN_INDEX]))
    as (st1 & acts & st2 & it & w & Hins & Hedit & Hit & _ & Htext & _).
  - reflexivity.
  - reflexivity.
  - reflexivity.
  - reflexivity.
  - by_decide.
  - reflexivity.
  - exists st1, acts, st2, it. split; [exact Hins|]. split; [exact Hedit|].
    split; [exact Hit | exact Htext].
Defined.

End more_samples.

(** ** Items that are never deleted *)

Section leak.
Import RevisionFile WorkInProgressWidget WorkInProgressSlots.
Variable checkoutFile : string -> bool.
Implicit Types (st : WorkInProgressWidget.t) (item : nat).

(** X11. The items [revertAllChanges] takes out of the unstaged list are
    owned by the cache alone.  If [clear] comes next, before any pass, it
    drops the records without deleting those items: they stay on the heap
    for good, in no list and in no record. *)
Theorem revert_then_clear_leaks st item :
  coherent st ->
  item ∈ rows_unstaged st ->
  exists st1 tips signal,
    revertAllChanges checkoutFile st = Some (st1, tips, signal) /\
    items (clear st1) !! item = withoutWidget <$> items st !! item /\
    is_Some (items (clear st1) !! item) /\
    mCurrentFilesCache (clear st1) = ∅ /\
    forall fileList, rows (clear st1) fileList = [].
Proof.
  intros Hcoh Hrow.
  pose proof Hcoh as (_ & _ & Hnd & Hrows & _)%coherent_alt.
  destruct (revertAllChanges_spec checkoutFile st)
    as (st1 & tips & Heq & _ & Hu & Hun & Hs & Hi & _ & _).
  { apply Forall_forall. intros row Hin. apply Hrows.
    unfold all_rows. rewrite !elem_of_app. tauto. }
  destruct (clear_spec st1) as (Hempty & Hcache & Hitems & _).
  assert (item ∉ all_rows st1) as Hnot.
  { unfold all_rows in *. rewrite Hu, Hun, Hs.
    apply NoDup_app in Hnd as (_ & Hdisj1 & Hnd).
    apply NoDup_app in Hnd as (_ & Hdisj2 & _).
    rewrite !not_elem_of_app. split_and!.
    - intros Hin. apply (Hdisj1 _ Hin). apply elem_of_app. by left.
    - apply not_elem_of_nil.
    - by apply Hdisj2. }
  assert (items (clear st1) !! item = withoutWidget <$> items st !! item)
    as Hkept.
  { by rewrite Hitems, decide_False, Hi, decide_True. }
  exists st1, tips, (existsb checkoutFile tips). split_and!; try done.
  rewrite Hkept, fmap_is_Some. apply Hrows.
  unfold all_rows. rewrite !elem_of_app. tauto.
Qed.

End leak.

Lemma revert_then_clear_leaks_witness :
  exists st1 tips signal,
    WorkInProgressSlots.revertAllChanges MoreSamples.checkout_b Samples.st_abc
      = Some (st1, tips, signal) /\
    is_Some (WorkInProgressWidget.items (WorkInProgressSlots.clear st1) !! 1%nat) /\
    WorkInProgressWidget.mCurrentFilesCache (WorkInProgressSlots.clear st1) = ∅.
Proof.
  destruct (revert_then_clear_leaks MoreSamples.checkout_b Samples.st_abc 1)
    as (st1 & tips & signal & Heq & _ & Hsome & Hcache & _).
  - by_decide.
  - by_decide.
  - exists st1, tips, signal. split; [exact Heq|]. split; [exact Hsome | exact Hcache].
Defined.
